(** * Etaler: the OpenCL backend (src/Etaler/Backends/OpenCLBackend.cpp)

    A shallow embedding of the kernel cache ([KernelManager]), the tensor
    life cycle and the five dispatcher operations of [OpenCLBackend],
    together with the properties of the backend's specification that were
    checked against it.

    Conventions.
    - [size_t] is the 64-bit unsigned type of an LP64 platform: a [Z] in
      [0, 2^64), with every wrap-around written out ([size_t_of]).
    - [int] / [cl_int] is a 32-bit signed integer ([int_of]).
    - The OpenCL runtime, the file system and [std::hash] are not part of
      the repository: their answers are the fields of one record
      ([Runtime]) that every operation takes as a parameter.
    - A C++ function that can throw is a function in the monad [M] below:
      it returns normally ([Ok]), throws an [EtError] ([Throw], the message
      and the state at the throw), or has no defined behaviour ([Fatal]). *)

From Stdlib Require Import ZArith NArith Lia String Ascii List.
From Stdlib Require Import DecimalString HexadecimalString DecimalZ HexadecimalN.
From stdpp Require Import base gmap strings list fin_maps.

Open Scope Z_scope.

(** ** Machine integers *)

Definition SIZE_T_MOD : Z := 2 ^ 64.

(** Conversion of an integer value to [size_t]. *)
Definition size_t_of (z : Z) : Z := z mod SIZE_T_MOD.

(** Conversion to [int], as in [(int)y->size()]. *)
Definition int_of (z : Z) : Z := (z + 2 ^ 31) mod 2 ^ 32 - 2 ^ 31.

Definition is_size_t (z : Z) : Prop := 0 <= z < SIZE_T_MOD.

Definition CL_SUCCESS : Z := 0.

(** ** Helper functions *)

(** [selectWorkSize(max, mul_of, size)], lines 20-24.  The lambda [round]
    works on [size_t]; a zero [mul_of] divides by zero, which C++ leaves
    undefined ([None]). *)
Definition selectWorkSize (max mul_of size : Z) : option Z :=
  if mul_of =? 0 then None
  else
    let round := fun v =>
      size_t_of (size_t_of ((v / mul_of) * mul_of)
                 + (if v mod mul_of =? 0 then 0 else mul_of)) in
    Some (Z.min max (round size)).

(** The rounding rule in the words of the specification:
    [groups = ceil(size / mul) * mul], clamped to [min(max, groups)],
    over the mathematical integers. *)
Definition ceil_div (a b : Z) : Z := (a + b - 1) / b.

Definition workSize_rule (max mul size : Z) : Z :=
  Z.min max (ceil_div size mul * mul).

(** [std::to_string] on an integer: its decimal digits, with a leading
    minus sign when negative. *)
Definition to_string (z : Z) : string :=
  DecimalString.NilZero.string_of_int (Z.to_int z).

(** [ss << std::hex << hash]: lower-case hexadecimal digits, no prefix and
    no leading zero. *)
Definition hex (n : N) : string :=
  HexadecimalString.NilEmpty.string_of_uint (N.to_hex_uint n).

(** ** Data model *)

(** The element types [DType::Unknown], [DType::Bool], [DType::Int32] and
    [DType::Float] that the source names; the enumeration is declared in a
    header that is not under src/. *)
Module DType.

Inductive t := Unknown | Bool | Int32 | Float.

End DType.

#[global] Instance DType_eq_dec : EqDecision DType.t :=
  ltac:(solve_decision).

(** A shape is its sequence of dimensions ([intmax_t] each). *)
Definition Shape := list Z.

(** A C++ [float], kept as its bit pattern: no floating-point arithmetic is
    modelled. *)
Record cfloat := { float_bits : Z }.

(** A [cl::Buffer]: the device allocation it names and its size in bytes. *)
Record Buffer := { buf_id : nat; buf_bytes : Z }.

(** A [cl::Program] as handed to the device compiler.  [prog_id] tells
    apart two program objects built from the same text. *)
Record Program :=
  { prog_id : nat; prog_sources : list string; prog_flags : string }.

(** A [cl::Kernel]: the entry point [k_name] of the program [k_program]. *)
Record Kernel := { k_program : Program; k_name : string }.

(** A tensor object behind a [TensorImpl*]: an [OpenCLTensor] of this
    backend, with its shape, element type and buffer, or the tensor of some
    other backend.  The back-reference to the backend is left out. *)
Inductive TensorImpl :=
| OpenCLTensor (shape_ : Shape) (dtype_ : DType.t) (buffer_ : Buffer)
| OtherTensor (shape_ : Shape) (dtype_ : DType.t).

Definition shape (t : TensorImpl) : Shape :=
  match t with OpenCLTensor s _ _ | OtherTensor s _ => s end.

Definition dtype (t : TensorImpl) : DType.t :=
  match t with OpenCLTensor _ d _ | OtherTensor _ d => d end.

(** Modelled from the spec: the template [points_to<OpenCLTensor>] of a
    header that is not under src/, the check that an operand is a tensor of
    this backend; [releaseTensor] writes it as
    [dynamic_cast<OpenCLTensor*>(pimpl) != nullptr]. *)
Definition points_to_OpenCLTensor (t : TensorImpl) : bool :=
  match t with OpenCLTensor _ _ _ => true | OtherTensor _ _ => false end.

(** Modelled from the spec: [Shape::volume] (its header is not under src/),
    the product of the dimensions, accumulated in a [size_t]. *)
Definition volume (s : Shape) : Z :=
  fold_left (fun acc d => size_t_of (acc * d)) s 1.

(** Modelled from the spec: [TensorImpl::size()], of a header that is not
    under src/, the number of elements, that is the volume of the shape. *)
Definition size (t : TensorImpl) : Z := volume (shape t).

(** Modelled from the spec: [size_of(dtype)], the function [dtypeToSize] of
    a header that is not under src/.  [Unknown] has no size. *)
Definition dtypeToSize (d : DType.t) : option Z :=
  match d with
  | DType.Bool => Some 1
  | DType.Int32 => Some 4
  | DType.Float => Some 4
  | DType.Unknown => None
  end.

(** Arguments bound with [setArg] and the commands a queue accepts. *)
Inductive KernelArg :=
| ArgBuffer (b : Buffer)
| ArgInt (z : Z)
| ArgFloat (f : cfloat).

Inductive Command :=
| NDRangeKernel (k : Kernel) (args : list KernelArg) (global local : Z)
| MapBuffer (b : Buffer) (bytes : Z)
| UnmapMemObject (b : Buffer) (written : list Byte.byte)
| ReadBuffer (b : Buffer) (bytes : Z)
| CopyBuffer (src dst : Buffer) (bytes : Z)
| Finish.

(** [KernelManager::Application] and the cache [apps_]. *)
Record Application := { kernels : gmap string Kernel }.

Record KernelManager := { apps_ : gmap string Application }.

(** The backend object, with the part of the OpenCL context its methods
    act on: [queue_] lists every submission to the command queue with the
    status the device gave it, [built_] every program handed to the device
    compiler, [allocated_] counts the buffers created, and [tensors_] holds
    the live tensor objects by address. *)
Record OpenCLBackend : Type := {
  kernel_manager_ : KernelManager;
  kernel_root_ : string;
  queue_ : list (Command * Z);
  built_ : list Program;
  allocated_ : nat;
  tensors_ : gmap nat TensorImpl;
  next_tensor_ : nat
}.

Definition with_apps (a : gmap string Application) (s : OpenCLBackend) :=
  {| kernel_manager_ := {| apps_ := a |}; kernel_root_ := kernel_root_ s;
     queue_ := queue_ s; built_ := built_ s; allocated_ := allocated_ s;
     tensors_ := tensors_ s; next_tensor_ := next_tensor_ s |}.

Definition with_queue (q : list (Command * Z)) (s : OpenCLBackend) :=
  {| kernel_manager_ := kernel_manager_ s; kernel_root_ := kernel_root_ s;
     queue_ := q; built_ := built_ s; allocated_ := allocated_ s;
     tensors_ := tensors_ s; next_tensor_ := next_tensor_ s |}.

Definition with_built (b : list Program) (s : OpenCLBackend) :=
  {| kernel_manager_ := kernel_manager_ s; kernel_root_ := kernel_root_ s;
     queue_ := queue_ s; built_ := b; allocated_ := allocated_ s;
     tensors_ := tensors_ s; next_tensor_ := next_tensor_ s |}.

Definition with_allocated (n : nat) (s : OpenCLBackend) :=
  {| kernel_manager_ := kernel_manager_ s; kernel_root_ := kernel_root_ s;
     queue_ := queue_ s; built_ := built_ s; allocated_ := n;
     tensors_ := tensors_ s; next_tensor_ := next_tensor_ s |}.

Definition with_tensors (t : gmap nat TensorImpl) (n : nat) (s : OpenCLBackend) :=
  {| kernel_manager_ := kernel_manager_ s; kernel_root_ := kernel_root_ s;
     queue_ := queue_ s; built_ := built_ s; allocated_ := allocated_ s;
     tensors_ := t; next_tensor_ := n |}.

(** What lies outside the repository: the standard library's string hash,
    the file system, and the answers of the OpenCL runtime. *)
Record Runtime : Type := {
  (** [std::hash<std::string>] *)
  std_hash : string -> N;
  (** the content of a file, when it can be opened *)
  read_file : string -> option string;
  (** [strerror(errno)] after a failed open *)
  strerror_errno : string -> string;
  (** status of [cl::Program::build] and the build log *)
  cl_build : Program -> Z;
  cl_build_log : Program -> string;
  (** status of the [cl::Kernel] constructor for an entry point *)
  cl_create_kernel : Program -> string -> Z;
  (** status of creating one more buffer of the given size *)
  cl_create_buffer : nat -> Z -> Z;
  (** status of a submission to the queue, after earlier submissions *)
  cl_enqueue : list (Command * Z) -> Command -> Z;
  (** [to_ctype_string], declared in a header that is not under src/ *)
  to_ctype_string : DType.t -> string;
  (** [(int)(n * f)] in single precision *)
  scale_to_int : Z -> cfloat -> Z
}.

(** ** The monad of backend methods *)

Inductive Outcome (A : Type) : Type :=
| Ok (a : A) (s : OpenCLBackend)
| Throw (what : string) (s : OpenCLBackend)
| Fatal.

Arguments Ok {A} a s.
Arguments Throw {A} what s.
Arguments Fatal {A}.

Definition M (A : Type) : Type := OpenCLBackend -> Outcome A.

#[global] Instance M_ret : MRet M := fun A a s => Ok a s.

#[global] Instance M_bind : MBind M := fun A B f m s =>
  match m s with
  | Ok a s' => f a s'
  | Throw w s' => Throw w s'
  | Fatal => Fatal
  end.

Definition throw {A} (what : string) : M A := fun s => Throw what s.

Definition fatal {A} : M A := fun _ => Fatal.

Definition gets {A} (f : OpenCLBackend -> A) : M A := fun s => Ok (f s) s.

Definition modify (f : OpenCLBackend -> OpenCLBackend) : M unit :=
  fun s => Ok tt (f s).

(** A value that C++ leaves undefined when it is absent. *)
Definition defined {A} (o : option A) : M A :=
  match o with Some a => mret a | None => fatal end.

(** The state an outcome leaves behind, when there is one. *)
Definition final_state {A} (o : Outcome A) : option OpenCLBackend :=
  match o with Ok _ s | Throw _ s => Some s | Fatal => None end.

(** Modelled from the spec: the macro [et_assert], whose header is not
    under src/; a failed check raises an error (TypeMismatchError in the
    specification's taxonomy).  The wording of the error is not specified:
    the text of the failed condition stands for it. *)
Definition et_assert (cond : bool) (expr : string) : M unit :=
  if cond then mret tt else throw ("Assertion failed: " +:+ expr).

(** Reading the object behind a pointer; a pointer to no live object has no
    defined behaviour. *)
Definition deref (p : nat) : M TensorImpl :=
  t ← gets (fun s => tensors_ s !! p); defined t.

(** [reinterpret_cast<OpenCLTensor*>(x)->buffer()] *)
Definition buffer (t : TensorImpl) : M Buffer :=
  match t with
  | OpenCLTensor _ _ b => mret b
  | OtherTensor _ _ => fatal
  end.

(** [new OpenCLTensor(...)] wrapped in a [shared_ptr]: a fresh address. *)
Definition new_tensor (t : TensorImpl) : M nat :=
  p ← gets next_tensor_;
  modify (fun s => with_tensors (<[p := t]> (tensors_ s)) (S p) s);;
  mret p.

Section Backend.

Context (cl : Runtime).

(** Submitting a command: the device's status is returned and recorded. *)
Definition enqueue (c : Command) : M Z :=
  q ← gets queue_;
  let err := cl_enqueue cl q c in
  modify (with_queue (q ++ [(c, err)]));;
  mret err.

(** [readAll(path)], lines 10-18 *)
Definition readAll (path : string) : M string :=
  match read_file cl path with
  | Some str => mret str
  | None => throw ("Cannot open file " +:+ path +:+ ". " +:+ strerror_errno cl path)
  end.

(** [hash_string(str)], lines 26-32 *)
Definition hash_string (str : string) : string := hex (std_hash cl str).

(** Modelled from the spec: [allocate(byteSize)], the method [allocBuffer]
    of a header that is not under src/; raises when the device rejects the
    size.  The wording of the error is not specified. *)
Definition allocBuffer (bytes : Z) : M Buffer :=
  n ← gets allocated_;
  let err := cl_create_buffer cl n bytes in
  if bool_decide (err = CL_SUCCESS) then
    modify (with_allocated (S n));;
    mret {| buf_id := n; buf_bytes := bytes |}
  else throw ("OpenCL buffer allocation failed. Error: " +:+ to_string err).

(** *** KernelManager *)

(** The kernel the cache holds for an entry point of a program. *)
Definition lookup_kernel (km : KernelManager) (program_name kernel_name : string)
  : option Kernel :=
  app ← apps_ km !! program_name; kernels app !! kernel_name.

(** Modelled from the spec: [exists(programName, entryPointName)], defined
    in a header that is not under src/. *)
Definition exists_ (program_name kernel_name : string) : M bool :=
  gets (fun s => bool_decide
    (is_Some (lookup_kernel (kernel_manager_ s) program_name kernel_name))).

(** Modelled from the spec: [kernel(programName, entryPointName)], defined
    in a header that is not under src/: a lookup, undefined or fatal when
    the kernel is absent. *)
Definition kernel (program_name kernel_name : string) : M Kernel :=
  k ← gets (fun s => lookup_kernel (kernel_manager_ s) program_name kernel_name);
  defined k.

(** [auto& app = apps_[program_name]]: [operator[]] adds an empty
    application when the name is new. *)
Definition touch_app (program_name : string) : M unit :=
  modify (fun s =>
    let apps := apps_ (kernel_manager_ s) in
    match apps !! program_name with
    | Some _ => s
    | None => with_apps (<[program_name := {| kernels := ∅ |}]> apps) s
    end).

(** [app.kernels[name] = k] through the reference [app] *)
Definition set_kernel (program_name name : string) (k : Kernel) : M unit :=
  modify (fun s =>
    let apps := apps_ (kernel_manager_ s) in
    match apps !! program_name with
    | Some app =>
        with_apps (<[program_name := {| kernels := <[name := k]> (kernels app) |}]> apps) s
    | None => s
    end).

(** The loop of lines 149-155 over [kernel_names]. *)
Fixpoint resolve_kernels (program : Program) (program_name : string)
    (kernel_names : list string) : M unit :=
  match kernel_names with
  | [] => mret tt
  | name :: rest =>
      let err := cl_create_kernel cl program name in
      if bool_decide (err ≠ CL_SUCCESS) then
        throw ("Kernel " +:+ name +:+ " not found in program " +:+ program_name)
      else
        set_kernel program_name name {| k_program := program; k_name := name |};;
        resolve_kernels program program_name rest
  end.

(** [KernelManager::compileKernel(srcs, program_name, kernel_names,
    force_override, flags)], lines 132-156 *)
Definition compileKernel (srcs : list string) (program_name : string)
    (kernel_names : list string) (force_override : bool) (flags : string) : M unit :=
  apps ← gets (fun s => apps_ (kernel_manager_ s));
  if bool_decide (is_Some (apps !! program_name)) && negb force_override then mret tt
  else
    n ← gets (fun s => length (built_ s));
    let program := {| prog_id := n; prog_sources := srcs; prog_flags := flags |} in
    modify (fun s => with_built (built_ s ++ [program]) s);;
    let err := cl_build cl program in
    if bool_decide (err ≠ CL_SUCCESS) then
      throw ("Error building OpenCL program: " +:+ program_name
             +:+ ", Error:" +:+ to_string err +:+ String "010" EmptyString
             +:+ cl_build_log cl program)
    else
      touch_app program_name;;
      resolve_kernels program program_name kernel_names.

(** The overload for one source text, lines 126-130 *)
Definition compileKernel_src (src program_name : string)
    (kernel_names : list string) (force_override : bool) (flags : string) : M unit :=
  compileKernel [src] program_name kernel_names force_override flags.

(** The overload for one source text and one kernel, lines 118-124; the
    failed [assert] is fatal. *)
Definition compileKernel_one (src program_name kernel_name : string)
    (force_override : bool) (flags : string) : M Kernel :=
  compileKernel_src src program_name [kernel_name] force_override flags;;
  ok ← exists_ program_name kernel_name;
  if (ok : bool) then kernel program_name kernel_name else fatal.

(** The loop of lines 168-169 *)
Fixpoint readAll_each (paths : list string) : M (list string) :=
  match paths with
  | [] => mret []
  | path :: rest =>
      src ← readAll path;
      srcs ← readAll_each rest;
      mret (src :: srcs)
  end.

(** [KernelManager::compileFromFile(paths, ...)], lines 164-171 *)
Definition compileFromFile (paths : list string) (program_name : string)
    (kernel_names : list string) (force_override : bool) (flags : string) : M unit :=
  sources ← readAll_each paths;
  compileKernel sources program_name kernel_names force_override flags.

(** The overload for one path, lines 158-162 *)
Definition compileFromFile_path (path program_name : string)
    (kernel_names : list string) (force_override : bool) (flags : string) : M unit :=
  compileFromFile [path] program_name kernel_names force_override flags.

(** *** Tensor life cycle *)

(** [OpenCLBackend::createTensor(shape, dtype, data)], lines 65-84.
    [data] is the host memory that can be read at the pointer, [None] for
    [nullptr].  [memcpy] (line 76) reads exactly [buf_size] bytes of it:
    reading past the end of a shorter [data] has no defined behaviour. *)
Definition createTensor (shape : Shape) (dtype : DType.t)
    (data : option (list Byte.byte)) : M nat :=
  et_assert (bool_decide (dtype ≠ DType.Unknown)) "dtype != DType::Unknown";;
  elem ← (match dtypeToSize dtype with
          | Some n => mret n
          | None => throw "Cannot get the size of DType::Unknown"
          end);
  let buf_size := size_t_of (volume shape * elem) in
  buf ← allocBuffer buf_size;
  (match data with
   | Some bytes =>
       err ← enqueue (MapBuffer buf buf_size);
       if bool_decide (err ≠ CL_SUCCESS) then
         throw ("OpenCL buffer map failed. Error: " +:+ to_string err
                +:+ ", map size " +:+ to_string buf_size)
       else if bool_decide (Z.of_nat (length bytes) < buf_size) then fatal
       else
         err ← enqueue (UnmapMemObject buf (take (Z.to_nat buf_size) bytes));
         if bool_decide (err ≠ CL_SUCCESS) then
           throw ("OpenCL buffer write failed. Error: " +:+ to_string err
                  +:+ ", write size " +:+ to_string buf_size)
         else mret tt
   | None => mret tt
   end);;
  new_tensor (OpenCLTensor shape dtype buf).

(** [OpenCLBackend::releaseTensor(pimpl)], lines 86-90 *)
Definition releaseTensor (pimpl : nat) : M unit :=
  t ← deref pimpl;
  et_assert (points_to_OpenCLTensor t) "dynamic_cast<OpenCLTensor*>(pimpl) != nullptr";;
  modify (fun s => with_tensors (delete pimpl (tensors_ s)) (next_tensor_ s) s).

(** The size in bytes of a tensor's elements,
    [t->size()*dtypeToSize(t->dtype())]; [dtypeToSize] raises for a type
    without a size, in words that are not specified. *)
Definition byte_size (t : TensorImpl) : M Z :=
  match dtypeToSize (dtype t) with
  | Some n => mret (size_t_of (size t * n))
  | None => throw "Cannot get the size of DType::Unknown"
  end.

(** [OpenCLBackend::copyToHost(pimpl, dest)], lines 92-100; the bytes read
    are not modelled. *)
Definition copyToHost (pimpl : nat) : M unit :=
  t ← deref pimpl;
  match t with
  | OtherTensor _ _ => throw "Cannot copy to host memory: Tensor/Backend mismach"
  | OpenCLTensor _ _ buf =>
      n ← byte_size t;
      err ← enqueue (ReadBuffer buf n);
      if bool_decide (err ≠ CL_SUCCESS) then
        throw ("OpenCL buffer readback failed. Error: " +:+ to_string err)
      else mret tt
  end.

(** [OpenCLBackend::sync()], lines 265-270 *)
Definition sync : M unit :=
  err ← enqueue Finish;
  if bool_decide (err ≠ CL_SUCCESS) then
    throw ("Waiting for OpenCL queue failed. Error: " +:+ to_string err)
  else mret tt.

(** [OpenCLBackend::copy(x)], lines 272-284 *)
Definition copy (px : nat) : M nat :=
  x ← deref px;
  et_assert (points_to_OpenCLTensor x) "points_to<OpenCLTensor>(x)";;
  buf_size ← byte_size x;
  buf ← allocBuffer buf_size;
  src ← buffer x;
  err ← enqueue (CopyBuffer src buf buf_size);
  if bool_decide (err ≠ CL_SUCCESS) then
    throw ("Data copy enqueuing failed. Error " +:+ to_string err)
  else new_tensor (OpenCLTensor (shape x) (dtype x) buf).

(** *** Specialization: flag strings and program names *)

(** [std::to_string] of a [bool] prints it as an [int]. *)
Definition str_bool (b : bool) : string := to_string (Z.b2z b).

(** line 190 *)
Definition overlapScore_args (input_size max_synapse_per_cell : Z)
    (has_unconnected_synapse : bool) : string :=
  "-DINPUT_SIZE=" +:+ to_string input_size
  +:+ " -DMAX_SYNAPSE_PER_CELL=" +:+ to_string max_synapse_per_cell
  +:+ " -DNO_UNUSED_SYNAPSE=" +:+ str_bool (negb has_unconnected_synapse).

(** line 223 *)
Definition globalInhibition_args (input_size : Z) : string :=
  "-DINPUT_SIZE=" +:+ to_string input_size
  +:+ " -DMAX_INPUT_VALUE=" +:+ to_string 2000.

(** line 250 *)
Definition cast_args (from to : DType.t) : string :=
  "-DInType=" +:+ to_ctype_string cl from +:+ " -DOutType=" +:+ to_ctype_string cl to.

(** line 302 *)
Definition learnCorrilation_args (input_size max_synapse_per_cell : Z) : string :=
  "-DINPUT_SIZE=" +:+ to_string input_size
  +:+ " -DMAX_SYNAPSE_PER_CELL=" +:+ to_string max_synapse_per_cell
  +:+ " -DNO_UNUSED_SYNAPSE=true".

(** line 333 *)
Definition sortSynapse_args (max_synapse_per_cell : Z) : string :=
  "-DMAX_SYNAPSE_PER_CELL=" +:+ to_string max_synapse_per_cell.

(** lines 191-192, 224-225, 251-252, 303-304, 334-335 *)
Definition overlapScore_program_name (args : string) : string :=
  "overlapScore" +:+ hash_string args.

Definition globalInhibition_program_name (args : string) : string :=
  "overlapScore" +:+ hash_string args.

Definition cast_program_name (args : string) : string :=
  "cast" +:+ hash_string args.

Definition learnCorrilation_program_name (args : string) : string :=
  "learnCorrilation" +:+ hash_string args.

Definition sortSynapse_program_name (args : string) : string :=
  "sortSynapse" +:+ hash_string args.

(** *** The dispatcher *)

Definition execution_failed (err : Z) : string :=
  "OpenCL kernel execution failed. Code " +:+ to_string err.

(** [OpenCLBackend::overlapScore], lines 174-210 *)
Definition overlapScore (px pconnections ppermeances : nat)
    (connected_permeance : cfloat) (active_threshold : Z) (py : nat)
    (has_unconnected_synapse : bool) : M unit :=
  x ← deref px;
  connections ← deref pconnections;
  permeances ← deref ppermeances;
  y ← deref py;
  et_assert (points_to_OpenCLTensor x) "points_to<const OpenCLTensor>(x)";;
  et_assert (points_to_OpenCLTensor connections) "points_to<const OpenCLTensor>(connections)";;
  et_assert (points_to_OpenCLTensor permeances) "points_to<const OpenCLTensor>(permeances)";;
  et_assert (points_to_OpenCLTensor y) "points_to<OpenCLTensor>(y)";;
  et_assert (bool_decide (dtype x = DType.Bool)) "x->dtype() == DType::Bool";;
  et_assert (bool_decide (dtype connections = DType.Int32)) "connections->dtype() == DType::Int32";;
  et_assert (bool_decide (dtype permeances = DType.Float)) "permeances->dtype() == DType::Float";;
  et_assert (bool_decide (dtype y = DType.Int32)) "y->dtype() == DType::Int32";;
  et_assert (bool_decide (shape connections = shape permeances))
    "connections->shape() == permeances->shape()";;
  back ← defined (last (shape connections));
  let args := overlapScore_args (size x) back has_unconnected_synapse in
  let program_name := overlapScore_program_name args in
  kernel_root ← gets kernel_root_;
  compileFromFile_path (kernel_root +:+ "overlapScore.cl") program_name
    ["overlapScore"] false args;;
  k ← kernel program_name "overlapScore";
  bx ← buffer x;
  bconnections ← buffer connections;
  bpermeances ← buffer permeances;
  by_ ← buffer y;
  let local_size := 64 in
  global ← defined (selectWorkSize 8152 local_size (size x));
  err ← enqueue (NDRangeKernel k
           [ArgBuffer bx; ArgBuffer bconnections; ArgBuffer bpermeances; ArgBuffer by_;
            ArgFloat connected_permeance; ArgInt (int_of active_threshold);
            ArgInt (int_of (size y))]
           global local_size);
  if bool_decide (err ≠ CL_SUCCESS) then throw (execution_failed err) else mret tt.

(** [OpenCLBackend::globalInhibition], lines 212-245; the status of neither
    submission is looked at. *)
Definition globalInhibition (px py : nat) (fraction : cfloat) : M unit :=
  x ← deref px;
  y ← deref py;
  et_assert (points_to_OpenCLTensor x) "points_to<OpenCLTensor>(x)";;
  et_assert (points_to_OpenCLTensor y) "points_to<OpenCLTensor>(y)";;
  et_assert (bool_decide (dtype x = DType.Int32)) "x->dtype() == DType::Int32";;
  et_assert (bool_decide (dtype y = DType.Bool)) "y->dtype() == DType::Bool";;
  et_assert (bool_decide (shape x = shape y)) "x->shape() == y->shape()";;
  let args := globalInhibition_args (size x) in
  let program_name := globalInhibition_program_name args in
  kernel_root ← gets kernel_root_;
  compileFromFile_path (kernel_root +:+ "globalInhibition.cl") program_name
    ["fastTopK"; "threshold"] false args;;
  topKKernel ← kernel program_name "fastTopK";
  thresholdKernel ← kernel program_name "threshold";
  threshold ← allocBuffer 4;
  bx ← buffer x;
  enqueue (NDRangeKernel topKKernel
    [ArgBuffer bx; ArgBuffer threshold; ArgInt (int_of (scale_to_int cl (size x) fraction))]
    256 256);;
  by_ ← buffer y;
  enqueue (NDRangeKernel thresholdKernel
    [ArgBuffer bx; ArgBuffer by_; ArgBuffer threshold] 1024 32);;
  mret tt.

(** [OpenCLBackend::cast], lines 247-263; the status of the submission is
    not looked at. *)
Definition cast (px : nat) (toType : DType.t) : M nat :=
  x ← deref px;
  et_assert (points_to_OpenCLTensor x) "points_to<OpenCLTensor>(x)";;
  let args := cast_args (dtype x) toType in
  let program_name := cast_program_name args in
  kernel_root ← gets kernel_root_;
  compileFromFile_path (kernel_root +:+ "cast.cl") program_name ["cast"] false args;;
  k ← kernel program_name "cast";
  res ← createTensor (shape x) toType None;
  bx ← buffer x;
  tres ← deref res;
  bres ← buffer tres;
  enqueue (NDRangeKernel k [ArgBuffer bx; ArgBuffer bres; ArgInt (int_of (size x))] 1024 32);;
  mret res.

(** [OpenCLBackend::learnCorrilation], lines 286-322 *)
Definition learnCorrilation (px plearn pconnections ppermeances : nat)
    (perm_inc perm_dec : cfloat) : M unit :=
  x ← deref px;
  learn ← deref plearn;
  connections ← deref pconnections;
  permeances ← deref ppermeances;
  et_assert (points_to_OpenCLTensor x) "points_to<OpenCLTensor>(x)";;
  et_assert (points_to_OpenCLTensor connections) "points_to<OpenCLTensor>(connections)";;
  et_assert (points_to_OpenCLTensor permeances) "points_to<OpenCLTensor>(permeances)";;
  et_assert (points_to_OpenCLTensor learn) "points_to<OpenCLTensor>(learn)";;
  et_assert (bool_decide (shape connections = shape permeances))
    "connections->shape() == permeances->shape()";;
  et_assert (bool_decide (shape x = shape learn)) "x->shape() == learn->shape()";;
  et_assert (bool_decide (dtype x = DType.Bool)) "x->dtype() == DType::Bool";;
  et_assert (bool_decide (dtype learn = DType.Bool)) "learn->dtype() == DType::Bool";;
  et_assert (bool_decide (dtype connections = DType.Int32)) "connections->dtype() == DType::Int32";;
  et_assert (bool_decide (dtype permeances = DType.Float)) "permeances->dtype() == DType::Float";;
  back ← defined (last (shape connections));
  let args := learnCorrilation_args (size x) back in
  let program_name := learnCorrilation_program_name args in
  kernel_root ← gets kernel_root_;
  compileFromFile_path (kernel_root +:+ "learnCorrilation.cl") program_name
    ["learnCorrilation"] false args;;
  k ← kernel program_name "learnCorrilation";
  bx ← buffer x;
  blearn ← buffer learn;
  bconnections ← buffer connections;
  bpermeances ← buffer permeances;
  let local_size := 128 in
  global ← defined (selectWorkSize 4096 local_size (size x));
  err ← enqueue (NDRangeKernel k
           [ArgBuffer bx; ArgBuffer blearn; ArgBuffer bconnections; ArgBuffer bpermeances;
            ArgFloat perm_inc; ArgFloat perm_dec]
           global local_size);
  if bool_decide (err ≠ CL_SUCCESS) then throw (execution_failed err) else mret tt.

(** [connections->size()/connections->shape().back()] converted to [int];
    the division is unsigned, and undefined for a zero divisor. *)
Definition num_cells_of (connections : TensorImpl) (back : Z) : option Z :=
  if size_t_of back =? 0 then None
  else Some (int_of (size connections / size_t_of back)).

(** [OpenCLBackend::sortSynapse], lines 324-354 *)
Definition sortSynapse (pconnections ppermeances : nat) : M unit :=
  connections ← deref pconnections;
  permeances ← deref ppermeances;
  et_assert (bool_decide (shape connections = shape permeances))
    "connections->shape() == permeances->shape()";;
  et_assert (points_to_OpenCLTensor connections) "points_to<OpenCLTensor>(connections)";;
  et_assert (points_to_OpenCLTensor permeances) "points_to<OpenCLTensor>(permeances)";;
  et_assert (bool_decide (dtype connections = DType.Int32)) "connections->dtype() == DType::Int32";;
  et_assert (bool_decide (dtype permeances = DType.Float)) "permeances->dtype() == DType::Float";;
  back ← defined (last (shape connections));
  let args := sortSynapse_args back in
  let program_name := sortSynapse_program_name args in
  kernel_root ← gets kernel_root_;
  compileFromFile_path (kernel_root +:+ "sort.cl") program_name ["sortSynapse"] false args;;
  k ← kernel program_name "sortSynapse";
  num_cells ← defined (num_cells_of connections back);
  aux_buffer1 ← allocBuffer (size_t_of (size connections * 4));
  aux_buffer2 ← allocBuffer (size_t_of (size permeances * 4));
  bconnections ← buffer connections;
  bpermeances ← buffer permeances;
  let local_size := 128 in
  global ← defined (selectWorkSize 4096 local_size (size_t_of num_cells));
  err ← enqueue (NDRangeKernel k
           [ArgBuffer bconnections; ArgBuffer bpermeances; ArgInt num_cells;
            ArgBuffer aux_buffer1; ArgBuffer aux_buffer2]
           global local_size);
  if bool_decide (err ≠ CL_SUCCESS) then throw (execution_failed err) else mret tt.

(** *** The backend as a transition system *)

(** The calls a client of the backend can make. *)
Inductive Call :=
| CreateTensor (shape : Shape) (dtype : DType.t) (data : option (list Byte.byte))
| ReleaseTensor (pimpl : nat)
| CopyToHost (pimpl : nat)
| Sync
| Copy (px : nat)
| Cast (px : nat) (toType : DType.t)
| OverlapScore (px pconnections ppermeances : nat) (connected_permeance : cfloat)
    (active_threshold : Z) (py : nat) (has_unconnected_synapse : bool)
| GlobalInhibition (px py : nat) (fraction : cfloat)
| LearnCorrilation (px plearn pconnections ppermeances : nat) (perm_inc perm_dec : cfloat)
| SortSynapse (pconnections ppermeances : nat)
| CompileKernel (srcs : list string) (program_name : string)
    (kernel_names : list string) (force_override : bool) (flags : string).

Definition run (c : Call) : M unit :=
  match c with
  | CreateTensor sh dt data => createTensor sh dt data;; mret tt
  | ReleaseTensor p => releaseTensor p
  | CopyToHost p => copyToHost p
  | Sync => sync
  | Copy p => copy p;; mret tt
  | Cast p t => cast p t;; mret tt
  | OverlapScore px pc pp cp th py_ f => overlapScore px pc pp cp th py_ f
  | GlobalInhibition px py_ f => globalInhibition px py_ f
  | LearnCorrilation px pl pc pp i d => learnCorrilation px pl pc pp i d
  | SortSynapse pc pp => sortSynapse pc pp
  | CompileKernel srcs n ks f fl => compileKernel srcs n ks f fl
  end.

(** One call takes the backend from [s] to [s'], whether it returns or
    throws. *)
Definition step (s s' : OpenCLBackend) : Prop :=
  exists c, final_state (run c s) = Some s'.

End Backend.

(** The backend right after its members are initialised, and the
    constructor's last statement (line 62), which compiles the dummy
    kernel.  Platform and device discovery (lines 36-60) are taken to have
    succeeded. *)
Definition fresh_backend (kernel_root : string) : OpenCLBackend :=
  {| kernel_manager_ := {| apps_ := ∅ |}; kernel_root_ := kernel_root;
     queue_ := []; built_ := []; allocated_ := 0%nat;
     tensors_ := ∅; next_tensor_ := 0%nat |}.

Definition construct (cl : Runtime) (kernel_root : string) : Outcome Kernel :=
  compileKernel_one cl
    "kernel void __etaler_dummy__(global int* p){p[get_global_id(0)] = 0;}"
    "__etaler_dummy__" "__etaler_dummy__" false EmptyString (fresh_backend kernel_root).

(** The states a backend can be in: after construction and any number of
    calls. *)
Inductive reachable (cl : Runtime) : OpenCLBackend -> Prop :=
| reachable_construct root k s :
    construct cl root = Ok k s -> reachable cl s
| reachable_step s s' :
    reachable cl s -> step cl s s' -> reachable cl s'.

(** ** Vocabulary of the statements *)

(** The program name has an entry in the cache. *)
Definition cached (s : OpenCLBackend) (program_name : string) : Prop :=
  is_Some (apps_ (kernel_manager_ s) !! program_name).

(** The program object the next device compilation creates. *)
Definition next_program (s : OpenCLBackend) (srcs : list string) (flags : string)
  : Program :=
  {| prog_id := length (built_ s); prog_sources := srcs; prog_flags := flags |}.

(** The kernels of [program] bound to [kernel_names], over the map [ks]. *)
Definition bind_kernels (program : Program) (kernel_names : list string)
    (ks : gmap string Kernel) : gmap string Kernel :=
  foldl (fun ks name => <[name := {| k_program := program; k_name := name |}]> ks)
        ks kernel_names.

(** Every program handed to the compiler so far carries its rank as
    identity. *)
Definition built_ok (s : OpenCLBackend) : Prop :=
  forall i p, built_ s !! i = Some p -> prog_id p = i.

(** [needle] occurs in [hay]. *)
Fixpoint mentions (needle hay : string) : bool :=
  if String.prefix needle hay then true
  else match hay with
       | EmptyString => false
       | String _ rest => mentions needle rest
       end.

(** ** A concrete runtime, to run the model on *)

Module Demo.

(** A polynomial string hash, standing for [std::hash]. *)
Definition hash (s : string) : N :=
  fold_left (fun h c => ((h * 31 + N_of_ascii c) mod 2 ^ 64)%N)
            (list_ascii_of_string s) 7%N.

Definition ctype (d : DType.t) : string :=
  match d with
  | DType.Bool => "bool"
  | DType.Int32 => "int"
  | DType.Float => "float"
  | DType.Unknown => "Unknown"
  end.

(** Every file is readable, every program builds, every entry point but
    ["missing"] resolves (-46 is CL_INVALID_KERNEL_NAME), every
    allocation and every submission succeeds. *)
Definition runtime : Runtime :=
  {| std_hash := hash;
     read_file := fun path => Some ("// " +:+ path);
     strerror_errno := fun _ => "No such file or directory";
     cl_build := fun _ => 0;
     cl_build_log := fun _ => EmptyString;
     cl_create_kernel := fun _ name =>
       if bool_decide (name = "missing") then -46 else 0;
     cl_create_buffer := fun _ _ => 0;
     cl_enqueue := fun _ _ => 0;
     to_ctype_string := ctype;
     scale_to_int := fun _ _ => 0 |}.

(** The same, with a device that rejects every kernel launch with -54
    (CL_INVALID_WORK_GROUP_SIZE). *)
Definition rejecting : Runtime :=
  {| std_hash := hash;
     read_file := fun path => Some ("// " +:+ path);
     strerror_errno := fun _ => "No such file or directory";
     cl_build := fun _ => 0;
     cl_build_log := fun _ => EmptyString;
     cl_create_kernel := fun _ _ => 0;
     cl_create_buffer := fun _ _ => 0;
     cl_enqueue := fun _ c =>
       match c with NDRangeKernel _ _ _ _ => -54 | _ => 0 end;
     to_ctype_string := ctype;
     scale_to_int := fun _ _ => 0 |}.

(** The state a sequence of calls leaves behind. *)
Definition after (cl : Runtime) (calls : list Call) (s : OpenCLBackend)
  : OpenCLBackend :=
  foldl (fun s c => default s (final_state (run cl c s))) s calls.

(** A backend holding the operands of an overlap score over 8150 inputs:
    [x] at address 0, [connections] at 1, [permeances] at 2, [y] at 3. *)
Definition tensors (cl : Runtime) : OpenCLBackend :=
  after cl
    [CreateTensor [8150] DType.Bool None;
     CreateTensor [8150; 32] DType.Int32 None;
     CreateTensor [8150; 32] DType.Float None;
     CreateTensor [8150] DType.Int32 None]
    (fresh_backend "kernels/").

(** A backend whose cache holds program ["p"], compiled from source A
    with the entry points ["a"] and ["b"]. *)
Definition compiled : OpenCLBackend :=
  after runtime
    [CompileKernel ["kernel void a(){} kernel void b(){}"] "p" ["a"; "b"] false EmptyString]
    (fresh_backend "kernels/").

End Demo.

(** ** Specialization parameters *)

(** The parameters each dispatcher operation specializes its program on. *)
Inductive Specialization :=
| ForOverlapScore (input_size max_synapse_per_cell : Z) (has_unconnected_synapse : bool)
| ForGlobalInhibition (input_size : Z)
| ForCast (from to : DType.t)
| ForLearnCorrilation (input_size max_synapse_per_cell : Z)
| ForSortSynapse (max_synapse_per_cell : Z).

(** The parameters a call derives from its operands; [None] for a call
    that compiles nothing and for operands that are not to be had. *)
Definition specialization_of (s : OpenCLBackend) (c : Call) : option Specialization :=
  match c with
  | OverlapScore px pconnections _ _ _ _ has_unconnected_synapse =>
      x ← tensors_ s !! px;
      connections ← tensors_ s !! pconnections;
      back ← last (shape connections);
      Some (ForOverlapScore (size x) back has_unconnected_synapse)
  | GlobalInhibition px _ _ =>
      x ← tensors_ s !! px; Some (ForGlobalInhibition (size x))
  | Cast px toType =>
      x ← tensors_ s !! px; Some (ForCast (dtype x) toType)
  | LearnCorrilation px _ pconnections _ _ _ =>
      x ← tensors_ s !! px;
      connections ← tensors_ s !! pconnections;
      back ← last (shape connections);
      Some (ForLearnCorrilation (size x) back)
  | SortSynapse pconnections _ =>
      connections ← tensors_ s !! pconnections;
      back ← last (shape connections);
      Some (ForSortSynapse back)
  | _ => None
  end.

(** The flag string and the program name of a specialization, as the
    operation builds them. *)
Definition flags_of (cl : Runtime) (sp : Specialization) : string :=
  match sp with
  | ForOverlapScore n m u => overlapScore_args n m u
  | ForGlobalInhibition n => globalInhibition_args n
  | ForCast from to => cast_args cl from to
  | ForLearnCorrilation n m => learnCorrilation_args n m
  | ForSortSynapse m => sortSynapse_args m
  end.

Definition program_name (cl : Runtime) (sp : Specialization) : string :=
  match sp with
  | ForOverlapScore _ _ _ => overlapScore_program_name cl (flags_of cl sp)
  | ForGlobalInhibition _ => globalInhibition_program_name cl (flags_of cl sp)
  | ForCast _ _ => cast_program_name cl (flags_of cl sp)
  | ForLearnCorrilation _ _ => learnCorrilation_program_name cl (flags_of cl sp)
  | ForSortSynapse _ => sortSynapse_program_name cl (flags_of cl sp)
  end.

Definition program_name_of (cl : Runtime) (s : OpenCLBackend) (c : Call)
  : option string :=
  program_name cl <$> specialization_of s c.

(** ** Invariants of the tensor heap *)

(** The buffer of a tensor of this backend has the byte size that
    [createTensor] computes: [shape.volume()*dtypeToSize(dtype)] in
    [size_t]. *)
Definition sized (t : TensorImpl) : Prop :=
  match t with
  | OpenCLTensor sh dt buf =>
      exists elem, dtypeToSize dt = Some elem
                   /\ buf_bytes buf = size_t_of (volume sh * elem)
  | OtherTensor _ _ => True
  end.

(** The invariant in the words of the specification,
    [buffer byte size == volume(shape) * size_of(dtype)], with the volume
    and the product taken over the integers. *)
Definition volume_rule (sh : Shape) : Z := foldr Z.mul 1 sh.

Definition sized_rule (t : TensorImpl) : Prop :=
  match t with
  | OpenCLTensor sh dt buf =>
      exists elem, dtypeToSize dt = Some elem
                   /\ buf_bytes buf = volume_rule sh * elem
  | OtherTensor _ _ => True
  end.

(** The byte size of the specification is a [size_t]. *)
Definition fits (t : TensorImpl) : Prop :=
  forall elem, dtypeToSize (dtype t) = Some elem ->
    0 <= volume_rule (shape t) * elem < SIZE_T_MOD.

(** A backend that, once constructed, was asked for a tensor of 2^62+1
    elements of type [int] on a device that grants every allocation. *)
Definition overflowing : OpenCLBackend :=
  Demo.after Demo.runtime [CreateTensor [4611686018427387905] DType.Int32 None]
    (default (fresh_backend "kernels/")
             (final_state (construct Demo.runtime "kernels/"))).

(** The buffer of a tensor is one of the buffers allocated so far. *)
Definition owned (s : OpenCLBackend) (t : TensorImpl) : Prop :=
  match t with
  | OpenCLTensor _ _ buf => (buf_id buf < allocated_ s)%nat
  | OtherTensor _ _ => True
  end.

Definition heap_ok (s : OpenCLBackend) : Prop :=
  forall p t, tensors_ s !! p = Some t ->
    (p < next_tensor_ s)%nat /\ owned s t /\ sized t.

(** Between [s] and [s'] no address is reused, and what [s'] holds at an
    address of [s] is the object [s] holds there. *)
Definition heap_evolves (s s' : OpenCLBackend) : Prop :=
  (next_tensor_ s <= next_tensor_ s')%nat
  /\ forall p t, tensors_ s' !! p = Some t -> (p < next_tensor_ s)%nat ->
       tensors_ s !! p = Some t.

(** ** Dispatch errors *)

(** The operation looks at the status of its kernel launch: it submits at
    most one command, a kernel launch, and returns if the device accepted
    it and throws the status otherwise. *)
Definition launch_checked (m : M unit) : Prop :=
  forall s s', final_state (m s) = Some s' ->
    queue_ s' = queue_ s
    \/ exists k args global local err,
         queue_ s' = queue_ s ++ [(NDRangeKernel k args global local, err)]
         /\ m s = if bool_decide (err = CL_SUCCESS) then Ok tt s'
                  else Throw (execution_failed err) s'.

(** The calls whose kernel launch is followed by a test of its status. *)
Definition checks_launch (c : Call) : bool :=
  match c with
  | OverlapScore _ _ _ _ _ _ _ | LearnCorrilation _ _ _ _ _ _ | SortSynapse _ _ => true
  | _ => false
  end.

(** ** Footprints *)

(** [frame R m]: whenever [m] leaves a state behind, it is related by [R]
    to the state [m] started in. *)
Definition frame {A} (R : relation OpenCLBackend) (m : M A) : Prop :=
  forall s s', final_state (m s) = Some s' -> R s s'.

(** [keeps proj m]: [m] does not change the component [proj] of the state. *)
Definition keeps {A C} (proj : OpenCLBackend -> C) (m : M A) : Prop :=
  frame (fun s s' => proj s' = proj s) m.

(** A relation between the states before and after a call that every
    update a method makes, short of creating a tensor, respects. *)
Class Footprint (R : relation OpenCLBackend) : Prop := {
  fp_preorder :: PreOrder R;
  fp_apps : forall name app s,
    R s (with_apps (<[name := app]> (apps_ (kernel_manager_ s))) s);
  fp_built : forall srcs flags s,
    R s (with_built (built_ s ++ [next_program s srcs flags]) s);
  fp_queue : forall q s, R s (with_queue q s);
  fp_alloc : forall s, R s (with_allocated (S (allocated_ s)) s);
  fp_delete : forall p s,
    R s (with_tensors (delete p (tensors_ s)) (next_tensor_ s) s)
}.

(** The footprint of a state predicate that calls preserve. *)
Definition preserved (I : OpenCLBackend -> Prop) : relation OpenCLBackend :=
  fun s s' => I s -> I s'.

(** What a compilation leaves alone: the heap, the buffers, the queue. *)
Definition beside_cache (s : OpenCLBackend) :=
  (tensors_ s, next_tensor_ s, allocated_ s, queue_ s, kernel_root_ s).


(** The only entry of the cache that may differ between [s] and [s'] is
    the one of [name]. *)
Definition only_name (name : string) (s s' : OpenCLBackend) : Prop :=
  forall n, n ≠ name ->
    apps_ (kernel_manager_ s') !! n = apps_ (kernel_manager_ s) !! n.

(** No character of the string is a space. *)
Fixpoint no_space (s : string) : Prop :=
  match s with
  | EmptyString => True
  | String c rest => c ≠ " "%char /\ no_space rest
  end.


(** ** Platform discovery, construction and diagnostics *)

(** What the OpenCL runtime tells about a device and a platform. *)
Record Device := {
  device_name : string;
  compiler_available : bool;
  global_mem_size : Z;
  max_mem_alloc_size : Z;
  local_mem_size : Z
}.

Record Platform := {
  platform_name : string;
  (** the devices [getDevices(CL_DEVICE_TYPE_ALL, ...)] stores, none when
      it fails *)
  platform_devices : list Device
}.

(** The machine the backend is constructed on. *)
Record Host := {
  (** status of [cl::Platform::get] and the platforms it stores *)
  platform_get : Z * list Platform;
  (** status of creating a context for a device *)
  create_context : Device -> Z;
  (** [std::to_string((float)n/1024/1024)]: floating point, not modelled *)
  megabytes_text : Z -> string;
  (** [CL_KERNEL_PREFERRED_WORK_GROUP_SIZE_MULTIPLE] of a kernel on a device *)
  preferred_work_group_size_multiple : Kernel -> Device -> Z
}.

Definition dummy_kernel : string := "__etaler_dummy__".

Definition dummy_source : string :=
  "kernel void __etaler_dummy__(global int* p){p[get_global_id(0)] = 0;}".

(** [OpenCLBackend::OpenCLBackend()], lines 34-63.  The members
    [platform_] and [device_] are returned; [queue_] and [kernel_manager_]
    start empty; the two defaulted arguments of [compileKernel] are [false]
    and the empty string. *)
Definition OpenCLBackend_new (host : Host) (cl : Runtime) (kernel_root : string)
  : Outcome (Platform * Device) :=
  (let '(err, platforms) := platform_get host in
   if bool_decide (err ≠ CL_SUCCESS) then
     throw ("Failed to get OpenCL platforms. Error: " +:+ to_string err)
   else
     match platforms with
     | [] => throw "No OpenCL platform found."
     | platform :: _ =>
         match platform_devices platform with
         | [] => throw ("No OpenCL device found in platorm " +:+ platform_name platform)
         | device :: _ =>
             if negb (compiler_available device) then
               throw ("Compiler for " +:+ device_name device
                      +:+ " is not avliable. (Devices like Altera/Xilinx FPGAs not supported"
                      +:+ " in the OpenCL backend.)")
             else
               let err := create_context host device in
               if bool_decide (err ≠ CL_SUCCESS) then
                 throw ("Failed to create OpenCL context. Error " +:+ to_string err)
               else
                 compileKernel_one cl dummy_source dummy_kernel dummy_kernel
                   false EmptyString;;
                 mret (platform, device)
         end
     end) (fresh_backend kernel_root).

(** [OpenCLBackend::deviceInfo()], lines 102-116, for the members
    [platform_] and [device_] that the constructor chose.  The one-argument
    overload [kernel(name)] of the kernel manager is declared in a header
    that is not under src/: it is the argument [kernel_by_name]. *)
Definition deviceInfo (host : Host) (kernel_by_name : string -> M Kernel)
    (platform_ : Platform) (device_ : Device) : M string :=
  let nl := String "010" EmptyString in
  let res := "Platform: " +:+ platform_name platform_ +:+ nl in
  let res := res +:+ "Device name: " +:+ device_name device_ +:+ nl in
  let res := res +:+ "Global memory size: "
                 +:+ megabytes_text host (global_mem_size device_) +:+ " GB" +:+ nl in
  let res := res +:+ "Max allocatable memory: "
                 +:+ megabytes_text host (max_mem_alloc_size device_) +:+ " GB" +:+ nl in
  let res := res +:+ "Local memory size: "
                 +:+ to_string (local_mem_size device_ / 1024) +:+ " KB" +:+ nl in
  k ← kernel_by_name dummy_kernel;
  mret (res +:+ "Prefered work group size: "
            +:+ to_string (preferred_work_group_size_multiple host k device_) +:+ nl).

(** ** Vocabulary of further properties *)

(** No entry of the cache and no kernel of an entry is lost between [s]
    and [s']. *)
Definition cache_grows (s s' : OpenCLBackend) : Prop :=
  (forall n, cached s n -> cached s' n)
  /\ forall n kn, is_Some (lookup_kernel (kernel_manager_ s) n kn) ->
       is_Some (lookup_kernel (kernel_manager_ s') n kn).

(** Every kernel of the cache is found under its own entry-point name and
    belongs to a program that was handed to the compiler, that built, and
    in which the entry point resolved. *)
Definition cache_sound (cl : Runtime) (s : OpenCLBackend) : Prop :=
  forall n kn k, lookup_kernel (kernel_manager_ s) n kn = Some k ->
    k_name k = kn /\ k_program k ∈ built_ s
    /\ cl_build cl (k_program k) = CL_SUCCESS
    /\ cl_create_kernel cl (k_program k) kn = CL_SUCCESS.

(** Between [s] and [s'] the queue received submissions that all satisfy
    [P], and lost none. *)
Definition submits (P : Command * Z -> Prop) : relation OpenCLBackend :=
  fun s s' => exists new, queue_ s' = queue_ s ++ new /\ Forall P new.

(** The device accepted the submission. *)
Definition accepted (e : Command * Z) : Prop := e.2 = CL_SUCCESS.

(** A transfer that stays within the buffers it names. *)
Definition in_bounds (e : Command * Z) : Prop :=
  match e.1 with
  | MapBuffer b n => 0 <= n <= buf_bytes b
  | UnmapMemObject b written => Z.of_nat (length written) <= buf_bytes b
  | ReadBuffer b n => 0 <= n <= buf_bytes b
  | CopyBuffer src dst n => 0 <= n <= buf_bytes src /\ n <= buf_bytes dst
  | _ => True
  end.

(** A kernel launch on a whole number of groups and at most 4096 work
    items. *)
Definition regular_launch (e : Command * Z) : Prop :=
  match e.1 with
  | NDRangeKernel _ _ global local =>
      0 < local /\ global mod local = 0 /\ 0 <= global <= 4096
  | _ => True
  end.

(** The calls that do not look at the status of their kernel launches. *)
Definition ignores_status (c : Call) : bool :=
  match c with
  | Cast _ _ | GlobalInhibition _ _ _ => true
  | _ => false
  end.

(** The calls that neither create nor release a tensor. *)
Definition in_place (c : Call) : bool :=
  match c with
  | CreateTensor _ _ _ | ReleaseTensor _ | Copy _ | Cast _ _ => false
  | _ => true
  end.

(** [frame_at R s m]: the state that [m] leaves when started in [s] is
    related to [s] by [R]. *)
Definition frame_at {A} (R : relation OpenCLBackend) (s : OpenCLBackend) (m : M A)
  : Prop :=
  forall s', final_state (m s) = Some s' -> R s s'.

(** With [n] in the cache, nothing is compiled and [n] stays in the
    cache. *)
Definition served_from_cache (n : string) : relation OpenCLBackend :=
  fun s s' => cached s n -> built_ s' = built_ s /\ cached s' n.

(** The checks a call makes on its operands before it does anything else;
    [None] when an operand is not a live tensor. *)
Definition operands_pass (s : OpenCLBackend) (c : Call) : option bool :=
  match c with
  | CreateTensor _ dt _ => Some (bool_decide (dt ≠ DType.Unknown))
  | ReleaseTensor p => t ← tensors_ s !! p; Some (points_to_OpenCLTensor t)
  | CopyToHost p => t ← tensors_ s !! p; Some (points_to_OpenCLTensor t)
  | Copy p => t ← tensors_ s !! p; Some (points_to_OpenCLTensor t)
  | Cast p _ => t ← tensors_ s !! p; Some (points_to_OpenCLTensor t)
  | OverlapScore px pc pp _ _ py_ _ =>
      x ← tensors_ s !! px; c ← tensors_ s !! pc;
      p ← tensors_ s !! pp; y ← tensors_ s !! py_;
      Some (points_to_OpenCLTensor x && points_to_OpenCLTensor c
            && points_to_OpenCLTensor p && points_to_OpenCLTensor y
            && bool_decide (dtype x = DType.Bool)
            && bool_decide (dtype c = DType.Int32)
            && bool_decide (dtype p = DType.Float)
            && bool_decide (dtype y = DType.Int32)
            && bool_decide (shape c = shape p))
  | GlobalInhibition px py_ _ =>
      x ← tensors_ s !! px; y ← tensors_ s !! py_;
      Some (points_to_OpenCLTensor x && points_to_OpenCLTensor y
            && bool_decide (dtype x = DType.Int32)
            && bool_decide (dtype y = DType.Bool)
            && bool_decide (shape x = shape y))
  | LearnCorrilation px pl pc pp _ _ =>
      x ← tensors_ s !! px; l ← tensors_ s !! pl;
      c ← tensors_ s !! pc; p ← tensors_ s !! pp;
      Some (points_to_OpenCLTensor x && points_to_OpenCLTensor c
            && points_to_OpenCLTensor p && points_to_OpenCLTensor l
            && bool_decide (shape c = shape p)
            && bool_decide (shape x = shape l)
            && bool_decide (dtype x = DType.Bool)
            && bool_decide (dtype l = DType.Bool)
            && bool_decide (dtype c = DType.Int32)
            && bool_decide (dtype p = DType.Float))
  | SortSynapse pc pp =>
      c ← tensors_ s !! pc; p ← tensors_ s !! pp;
      Some (bool_decide (shape c = shape p)
            && points_to_OpenCLTensor c && points_to_OpenCLTensor p
            && bool_decide (dtype c = DType.Int32)
            && bool_decide (dtype p = DType.Float))
  | Sync | CompileKernel _ _ _ _ _ => Some true
  end.

(** The contents of the files, when each of them can be read. *)
Definition read_all (cl : Runtime) (paths : list string) : option (list string) :=
  mapM (read_file cl) paths.

(** The first of the paths that cannot be read. *)
Definition first_unreadable (cl : Runtime) (paths : list string) : option string :=
  head (filter (fun path => read_file cl path = None) paths).

(** A runtime without any readable file, otherwise as [Demo.runtime]. *)
Definition no_files : Runtime :=
  {| std_hash := Demo.hash;
     read_file := fun _ => None;
     strerror_errno := fun _ => "No such file or directory";
     cl_build := fun _ => 0;
     cl_build_log := fun _ => EmptyString;
     cl_create_kernel := fun _ _ => 0;
     cl_create_buffer := fun _ _ => 0;
     cl_enqueue := fun _ _ => 0;
     to_ctype_string := Demo.ctype;
     scale_to_int := fun _ _ => 0 |}.

(** The program the constructor compiles. *)
Definition dummy_program : Program :=
  {| prog_id := 0; prog_sources := [dummy_source]; prog_flags := EmptyString |}.

(** A host with one platform of two devices, the first with a compiler. *)
Definition demo_host : Host :=
  {| platform_get :=
       (0, [{| platform_name := "Portable Computing Language";
               platform_devices :=
                 [{| device_name := "cpu"; compiler_available := true;
                     global_mem_size := 8589934592; max_mem_alloc_size := 2147483648;
                     local_mem_size := 65536 |};
                  {| device_name := "fpga"; compiler_available := false;
                     global_mem_size := 0; max_mem_alloc_size := 0;
                     local_mem_size := 0 |}] |}]);
     create_context := fun _ => 0;
     megabytes_text := fun n => to_string (n / 1024 / 1024) +:+ ".000000";
     preferred_work_group_size_multiple := fun _ _ => 8 |}.

(** The backend that the constructor leaves on [demo_host]. *)
Definition constructed : OpenCLBackend :=
  default (fresh_backend "kernels/")
          (final_state (OpenCLBackend_new demo_host Demo.runtime "kernels/")).

(** The [connections] operand of the calls that have one. *)
Definition connections_of (c : Call) : option nat :=
  match c with
  | OverlapScore _ pc _ _ _ _ _ | LearnCorrilation _ _ pc _ _ _ | SortSynapse pc _ =>
      Some pc
  | _ => None
  end.

(** * Properties *)

(** ** Facts about the helpers *)

Lemma ceil_div_exact a b : 0 < b -> a mod b = 0 -> ceil_div a b * b = a.
Proof.
  intros Hb Hm. unfold ceil_div.
  pose proof (Z.div_mod a b ltac:(lia)) as Ha. rewrite Hm in Ha.
  replace (a + b - 1) with ((b - 1) + (a / b) * b) by lia.
  rewrite Z.div_add by lia. rewrite (Z.div_small (b - 1) b) by lia. lia.
Qed.

Lemma ceil_div_inexact a b :
  0 < b -> a mod b <> 0 -> ceil_div a b * b = (a / b) * b + b.
Proof.
  intros Hb Hm. unfold ceil_div.
  pose proof (Z.div_mod a b ltac:(lia)) as Ha.
  pose proof (Z.mod_pos_bound a b Hb) as Hr.
  replace (a + b - 1) with ((a mod b - 1) + (a / b + 1) * b) by lia.
  rewrite Z.div_add by lia. rewrite (Z.div_small (a mod b - 1) b) by lia. lia.
Qed.

(** [ceil_div a b] is the least number of groups of [b] that cover [a]. *)
Lemma ceil_div_least a b q :
  0 < b -> a <= ceil_div a b * b /\ (a <= q * b -> ceil_div a b <= q).
Proof.
  intros Hb.
  pose proof (Z.div_mod a b ltac:(lia)) as Ha.
  pose proof (Z.mod_pos_bound a b Hb) as Hr.
  destruct (Z.eq_dec (a mod b) 0) as [E|E].
  - pose proof (ceil_div_exact a b Hb E). split; [lia|]. intros. nia.
  - pose proof (ceil_div_inexact a b Hb E). split; [nia|]. intros. nia.
Qed.

(** What [selectWorkSize] computes for every non-zero group size: the
    rounded value is reduced modulo [2^64]. *)
Lemma selectWorkSize_wrap max mul size :
  is_size_t size -> 0 < mul ->
  selectWorkSize max mul size =
    Some (Z.min max (size_t_of (ceil_div size mul * mul))).
Proof.
  intros Hs Hm. unfold selectWorkSize, is_size_t in *.
  destruct (Z.eqb_spec mul 0) as [?|_]; [lia|].
  pose proof (Z.div_mod size mul ltac:(lia)) as Hd.
  pose proof (Z.mod_pos_bound size mul Hm) as Hr.
  assert (Hq : 0 <= size / mul) by (apply Z.div_pos; lia).
  assert (Hlo : size_t_of (size / mul * mul) = size / mul * mul).
  { unfold size_t_of. apply Z.mod_small. unfold SIZE_T_MOD in *. nia. }
  rewrite Hlo. do 2 f_equal.
  destruct (Z.eqb_spec (size mod mul) 0) as [E|E].
  - rewrite ceil_div_exact by assumption. f_equal. lia.
  - rewrite ceil_div_inexact by assumption. reflexivity.
Qed.

Lemma selectWorkSize_le_max max mul size g :
  selectWorkSize max mul size = Some g -> g <= max.
Proof.
  unfold selectWorkSize. destruct (mul =? 0); [discriminate|].
  intros [= <-]. apply Z.le_min_l.
Qed.

(** With the cap 4096 and groups of 128 (learnCorrilation, sortSynapse) the
    grid is a multiple of the group size for every [size_t] input. *)
Lemma selectWorkSize_4096_128 size :
  is_size_t size ->
  exists g, selectWorkSize 4096 128 size = Some g /\ g mod 128 = 0 /\ 0 <= g <= 4096.
Proof.
  intros Hs. rewrite selectWorkSize_wrap by (assumption || lia).
  eexists; split; [reflexivity|].
  set (c := ceil_div size 128 * 128).
  assert (Hc : c mod 128 = 0) by (unfold c; apply Z.mod_mul; lia).
  assert (Hw : size_t_of c mod 128 = 0).
  { unfold size_t_of, SIZE_T_MOD.
    change (2 ^ 64) with (128 * 2 ^ 57).
    rewrite Z.rem_mul_r by lia.
    rewrite Hc. rewrite Z.add_0_l. rewrite Z.mul_comm. apply Z.mod_mul. lia. }
  assert (Hn : 0 <= size_t_of c).
  { unfold size_t_of, SIZE_T_MOD. apply Z.mod_pos_bound. lia. }
  destruct (Z.min_spec 4096 (size_t_of c)) as [[? ->]|[? ->]].
  - split; [reflexivity | lia].
  - split; [assumption | lia].
Qed.

(** C2 (as amended).  For every cap, every non-zero group size and every
    element count whose rounded-up value [ceil(size / mul) * mul] still
    fits in [size_t], the helper returns [min(max, ceil(size / mul) * mul)];
    for max=8152 and mul=64 it returns 8128 at size 8100, 64 at size 64 and
    0 at size 0. *)
Theorem selectWorkSize_rule max mul size :
  (is_size_t size -> 0 < mul -> ceil_div size mul * mul < SIZE_T_MOD ->
   selectWorkSize max mul size = Some (workSize_rule max mul size))
  /\ selectWorkSize 8152 64 8100 = Some 8128
  /\ selectWorkSize 8152 64 64 = Some 64
  /\ selectWorkSize 8152 64 0 = Some 0.
Proof.
  split; [|split; [|split]]; [|vm_compute; reflexivity ..].
  intros Hs Hm Hfit. rewrite selectWorkSize_wrap by assumption.
  unfold workSize_rule. do 2 f_equal.
  unfold size_t_of. apply Z.mod_small. split; [|assumption].
  pose proof (ceil_div_least size mul 0 Hm) as [Hge _].
  unfold is_size_t in Hs. lia.
Qed.

Lemma selectWorkSize_rule_witness :
  selectWorkSize 8152 64 100 = Some (workSize_rule 8152 64 100).
Proof.
  apply (selectWorkSize_rule 8152 64 100); unfold is_size_t, SIZE_T_MOD;
    [lia | lia | reflexivity].
Defined.

(** C2 (as stated) fails twice.  At size 8100 the helper returns 8128, the
    value of the rule itself, and not the 8152 of the worked example; and
    where the rounding overflows [size_t] (the largest element count) the
    rounded value wraps to 0, while the rule over the integers gives the
    cap. *)
Lemma selectWorkSize_rule_fails :
  selectWorkSize 8152 64 8100 <> Some 8152
  /\ selectWorkSize 8152 64 18446744073709551615 = Some 0
  /\ workSize_rule 8152 64 18446744073709551615 = 8152.
Proof. split; [|split]; vm_compute; congruence. Qed.

(** ** Reasoning about methods *)

Section Monad.

Context {A B : Type}.

Lemma bind_Ok (m : M A) (f : A -> M B) s a s1 :
  m s = Ok a s1 -> (m ≫= f) s = f a s1.
Proof. unfold mbind, M_bind. by intros ->. Qed.

Lemma bind_Throw (m : M A) (f : A -> M B) s w s1 :
  m s = Throw w s1 -> (m ≫= f) s = Throw w s1.
Proof. unfold mbind, M_bind. by intros ->. Qed.

Lemma bind_Ok_inv (m : M A) (f : A -> M B) s b s' :
  (m ≫= f) s = Ok b s' -> exists a s1, m s = Ok a s1 /\ f a s1 = Ok b s'.
Proof. unfold mbind, M_bind. destruct (m s); [eauto | done | done]. Qed.

Lemma bind_final_inv (m : M A) (f : A -> M B) s s' :
  final_state ((m ≫= f) s) = Some s' ->
  (exists w, m s = Throw w s' /\ (m ≫= f) s = Throw w s')
  \/ (exists a s1, m s = Ok a s1 /\ (m ≫= f) s = f a s1
                   /\ final_state (f a s1) = Some s').
Proof.
  unfold mbind, M_bind. destruct (m s) as [a s1|w s1|]; cbn; [|intros [= ->]|done].
  - right. eauto.
  - left. eauto.
Qed.

End Monad.

Section Frame.

Context (R : relation OpenCLBackend) `{!PreOrder R}.

Lemma frame_ret {A} (a : A) : frame R (mret a).
Proof. intros s s' [= <-]. reflexivity. Qed.

Lemma frame_throw {A} w : frame R (throw (A := A) w).
Proof. intros s s' [= <-]. reflexivity. Qed.

Lemma frame_fatal {A} : frame R (fatal (A := A)).
Proof. intros s s' [=]. Qed.

Lemma frame_gets {A} (f : OpenCLBackend -> A) : frame R (gets f).
Proof. intros s s' [= <-]. reflexivity. Qed.

Lemma frame_modify f : (forall s, R s (f s)) -> frame R (modify f).
Proof. intros H s s' [= <-]. apply H. Qed.

Lemma frame_defined {A} (o : option A) : frame R (defined o).
Proof. destruct o; [apply frame_ret | apply frame_fatal]. Qed.

Lemma frame_et_assert c e : frame R (et_assert c e).
Proof. destruct c; [apply frame_ret | apply frame_throw]. Qed.

Lemma frame_bind {A B} (m : M A) (f : A -> M B) :
  frame R m -> (forall a, frame R (f a)) -> frame R (m ≫= f).
Proof.
  intros Hm Hf s s' H.
  apply bind_final_inv in H as [(w & H & _)|(a & s1 & H & _ & H')].
  - apply (Hm s). by rewrite H.
  - transitivity s1; [apply (Hm s); by rewrite H | by apply (Hf a)].
Qed.

Lemma frame_if {A} (c : bool) (m1 m2 : M A) :
  frame R m1 -> frame R m2 -> frame R (if c then m1 else m2).
Proof. by destruct c. Qed.

Lemma frame_deref p : frame R (deref p).
Proof. apply frame_bind; [apply frame_gets | intros; apply frame_defined]. Qed.

Lemma frame_buffer t : frame R (buffer t).
Proof. destruct t; [apply frame_ret | apply frame_fatal]. Qed.

Lemma frame_byte_size t : frame R (byte_size t).
Proof. unfold byte_size. destruct (dtypeToSize _); [apply frame_ret | apply frame_throw]. Qed.

Lemma frame_kernel p k : frame R (kernel p k).
Proof. apply frame_bind; [apply frame_gets | intros; apply frame_defined]. Qed.

Lemma frame_readAll cl path : frame R (readAll cl path).
Proof. unfold readAll. destruct (read_file _ _); [apply frame_ret | apply frame_throw]. Qed.

Lemma frame_readAll_each cl paths : frame R (readAll_each cl paths).
Proof.
  induction paths as [|p ps IH]; cbn; [apply frame_ret|].
  apply frame_bind; [apply frame_readAll|]. intros.
  apply frame_bind; [apply IH|]. intros. apply frame_ret.
Qed.

End Frame.

#[global] Instance keeps_preorder {C} (proj : OpenCLBackend -> C) :
  PreOrder (fun s s' => proj s' = proj s).
Proof. split; [by intros s | intros s1 s2 s3 H1 H2; congruence]. Qed.

Create HintDb frame.

#[global] Hint Resolve frame_ret frame_throw frame_fatal frame_gets frame_defined
  frame_et_assert frame_deref frame_buffer frame_byte_size frame_kernel
  frame_readAll frame_readAll_each : frame.

(** Descend through the binds of a method, leaving the steps that touch
    the state. *)
#[global] Hint Extern 1 (PreOrder _) => exact _ : frame.

Ltac frame_steps :=
  repeat first
    [ exact _
    | solve [eauto with frame]
    | apply frame_bind; [exact _ | | intros ?]
    | apply frame_if
    | progress cbv zeta ].

Section FramePrimitives.

Context (cl : Runtime).

Lemma frame_enqueue R `{!PreOrder R} c :
  (forall q s, R s (with_queue q s)) -> frame R (enqueue cl c).
Proof.
  intros H. unfold enqueue. frame_steps. apply frame_modify; auto.
Qed.

Lemma frame_allocBuffer R `{!PreOrder R} n :
  (forall s, R s (with_allocated (S (allocated_ s)) s)) -> frame R (allocBuffer cl n).
Proof.
  intros H. unfold allocBuffer.
  intros s s'. unfold mbind, M_bind, gets. cbn.
  case_bool_decide; cbn; intros [= <-]; [apply H | reflexivity].
Qed.

Lemma frame_new_tensor R `{!PreOrder R} t :
  (forall s, R s (with_tensors (<[next_tensor_ s := t]> (tensors_ s)) (S (next_tensor_ s)) s)) ->
  frame R (new_tensor t).
Proof. intros H s s' [= <-]. apply H. Qed.

Lemma frame_touch_app R `{!PreOrder R} name :
  (forall app s, R s (with_apps (<[name := app]> (apps_ (kernel_manager_ s))) s)) ->
  frame R (touch_app name).
Proof.
  intros H. unfold touch_app. apply frame_modify. intros s.
  cbv zeta. case_match; [reflexivity | apply H].
Qed.

Lemma frame_set_kernel R `{!PreOrder R} name kn k :
  (forall app s, R s (with_apps (<[name := app]> (apps_ (kernel_manager_ s))) s)) ->
  frame R (set_kernel name kn k).
Proof.
  intros H. unfold set_kernel. apply frame_modify. intros s.
  cbv zeta. case_match; [apply H | reflexivity].
Qed.

Lemma frame_resolve_kernels R `{!PreOrder R} program name names :
  (forall app s, R s (with_apps (<[name := app]> (apps_ (kernel_manager_ s))) s)) ->
  frame R (resolve_kernels cl program name names).
Proof.
  intros H. induction names as [|n ns IH]; cbn; [by apply frame_ret|].
  apply frame_if; [by apply frame_throw|].
  apply frame_bind; [exact _ | by apply frame_set_kernel | done].
Qed.

End FramePrimitives.

(** ** The kernel cache *)

Lemma with_apps_id s : with_apps (apps_ (kernel_manager_ s)) s = s.
Proof. by destruct s as [[]]. Qed.

Lemma lookup_bind_kernels_notin program names ks kn :
  kn ∉ names -> bind_kernels program names ks !! kn = ks !! kn.
Proof.
  revert ks. induction names as [|n ns IH]; intros ks Hkn; [done|].
  apply not_elem_of_cons in Hkn as [Hne Hns]. cbn.
  unfold bind_kernels in IH. rewrite IH by done. by rewrite lookup_insert_ne.
Qed.

Lemma lookup_bind_kernels_in program names ks kn :
  kn ∈ names ->
  bind_kernels program names ks !! kn = Some {| k_program := program; k_name := kn |}.
Proof.
  revert ks. induction names as [|n ns IH]; intros ks Hkn; [by apply elem_of_nil in Hkn|].
  cbn. destruct (decide (kn ∈ ns)) as [Hin|Hout].
  - by apply IH.
  - apply elem_of_cons in Hkn as [->|?]; [|done].
    pose proof (lookup_bind_kernels_notin program ns
      (<[n := {| k_program := program; k_name := n |}]> ks) n Hout) as H.
    unfold bind_kernels in H. rewrite H. by rewrite lookup_insert_eq.
Qed.

Section KernelCache.

Context (cl : Runtime).

(** What the loop over the entry points leaves in the cache when every name
    resolves. *)
Lemma resolve_kernels_Ok program name names s s' app :
  apps_ (kernel_manager_ s) !! name = Some app ->
  resolve_kernels cl program name names s = Ok tt s' ->
  s' = with_apps (<[name := {| kernels := bind_kernels program names (kernels app) |}]>
                    (apps_ (kernel_manager_ s))) s.
Proof.
  revert s app. induction names as [|n ns IH]; intros s app Happ H; cbn in *.
  - injection H as <-. destruct app as [ks]. cbn.
    rewrite insert_id by done. by rewrite with_apps_id.
  - case_bool_decide; [done|].
    unfold mbind, M_bind, set_kernel, modify in H. cbn in H. rewrite Happ in H.
    eapply IH in H; [|cbn; apply lookup_insert_eq].
    rewrite H. cbn. by rewrite insert_insert_eq.
Qed.

(** The first entry point that does not resolve stops the loop with an
    error, and the entry of the program stays in the cache. *)
Lemma resolve_kernels_unresolved program name names s kn :
  cached s name -> kn ∈ names -> cl_create_kernel cl program kn ≠ CL_SUCCESS ->
  exists bad s', resolve_kernels cl program name names s
                 = Throw ("Kernel " +:+ bad +:+ " not found in program " +:+ name) s'
                 /\ cached s' name.
Proof.
  revert s. induction names as [|n ns IH]; intros s Hc Hin Hbad; cbn.
  - by apply elem_of_nil in Hin.
  - case_bool_decide as Hn; [by exists n, s|].
    apply elem_of_cons in Hin as [->|Hin]; [done|].
    unfold mbind, M_bind, set_kernel, modify. cbn.
    destruct Hc as [app Happ]. unfold cached in IH. rewrite Happ.
    apply IH; [|done..]. cbn. rewrite lookup_insert_eq. by eexists.
Qed.

(** A call that finds the name cached and does not force returns at once. *)
Lemma compileKernel_hit srcs name names flags s :
  cached s name -> compileKernel cl srcs name names false flags s = Ok tt s.
Proof.
  intros Hc. unfold compileKernel, mbind, M_bind, gets. cbn.
  unfold cached in Hc. by rewrite bool_decide_true.
Qed.

(** Any other call hands a new program to the device compiler. *)
Lemma compileKernel_miss srcs name names force flags s :
  ¬ cached s name \/ force = true ->
  let program := next_program s srcs flags in
  let s1 := with_built (built_ s ++ [program]) s in
  compileKernel cl srcs name names force flags s =
    if bool_decide (cl_build cl program ≠ CL_SUCCESS) then
      Throw ("Error building OpenCL program: " +:+ name
             +:+ ", Error:" +:+ to_string (cl_build cl program) +:+ String "010" EmptyString
             +:+ cl_build_log cl program) s1
    else (touch_app name ;; resolve_kernels cl program name names) s1.
Proof.
  intros Hm. unfold compileKernel, mbind, M_bind, gets, modify, cached in *. cbn.
  destruct Hm as [Hm| ->].
  - rewrite bool_decide_false by done. cbn.
    unfold next_program. destruct (bool_decide _); reflexivity.
  - rewrite andb_false_r. unfold next_program. destruct (bool_decide _); reflexivity.
Qed.

Lemma compileKernel_compiles srcs name names force flags s s' :
  ¬ cached s name \/ force = true ->
  final_state (compileKernel cl srcs name names force flags s) = Some s' ->
  built_ s' = built_ s ++ [next_program s srcs flags].
Proof.
  intros Hm. rewrite compileKernel_miss by done. cbv zeta.
  case_bool_decide; [by intros [= <-]|].
  assert (Hfr : frame (fun s s' => built_ s' = built_ s)
            (touch_app name ;; resolve_kernels cl (next_program s srcs flags) name names)).
  { apply frame_bind; [exact _ | | intros _].
    - apply frame_touch_app; [exact _ | by intros].
    - apply frame_resolve_kernels; [exact _ | by intros]. }
  intros Hf. by apply Hfr in Hf.
Qed.

(** The footprint of a compilation: the entry of the program name in the
    cache, and one more program handed to the compiler. *)
Lemma frame_compileKernel R `{!PreOrder R} srcs name names force flags :
  (forall app s, R s (with_apps (<[name := app]> (apps_ (kernel_manager_ s))) s)) ->
  (forall s, R s (with_built (built_ s ++ [next_program s srcs flags]) s)) ->
  frame R (compileKernel cl srcs name names force flags).
Proof.
  intros Ha Hb s s'.
  destruct (decide (cached s name)) as [Hc|Hc], force eqn:Hf;
    try (rewrite compileKernel_hit by done; intros [= <-]; reflexivity);
    (rewrite compileKernel_miss by (try (by left); by right); cbv zeta;
     case_bool_decide; [intros [= <-]; apply Hb|];
     intros H'; etransitivity; [apply Hb|];
     revert H'; apply frame_bind; [exact _ | by apply frame_touch_app |];
     intros _; by apply frame_resolve_kernels).
Qed.

Lemma frame_compileFromFile_path R `{!PreOrder R} path name names force flags :
  (forall app s, R s (with_apps (<[name := app]> (apps_ (kernel_manager_ s))) s)) ->
  (forall srcs s, R s (with_built (built_ s ++ [next_program s srcs flags]) s)) ->
  frame R (compileFromFile_path cl path name names force flags).
Proof.
  intros Ha Hb. unfold compileFromFile_path, compileFromFile.
  apply frame_bind; [exact _ | by apply frame_readAll_each|].
  intros. by apply frame_compileKernel.
Qed.

(** A failed build leaves the cache as it was. *)
Lemma compileKernel_build_failure srcs name names force flags s :
  ¬ cached s name \/ force = true ->
  cl_build cl (next_program s srcs flags) ≠ CL_SUCCESS ->
  exists what s', compileKernel cl srcs name names force flags s = Throw what s'
                  /\ kernel_manager_ s' = kernel_manager_ s.
Proof.
  intros Hm Hb. rewrite compileKernel_miss by done. cbv zeta.
  rewrite bool_decide_true by done. by eexists _, _.
Qed.

(** An entry point that does not resolve leaves the program in the cache. *)
Lemma compileKernel_unresolved srcs name names force flags s kn :
  ¬ cached s name \/ force = true ->
  cl_build cl (next_program s srcs flags) = CL_SUCCESS ->
  kn ∈ names -> cl_create_kernel cl (next_program s srcs flags) kn ≠ CL_SUCCESS ->
  exists what s', compileKernel cl srcs name names force flags s = Throw what s'
                  /\ cached s' name.
Proof.
  intros Hm Hb Hin Hbad. rewrite compileKernel_miss by done. cbv zeta.
  rewrite bool_decide_false by (intros ?; done).
  unfold mbind, M_bind, touch_app, modify. cbn.
  edestruct (resolve_kernels_unresolved (next_program s srcs flags) name names) as
    (bad & s' & -> & Hc); [|done|done|by eexists _, _].
  unfold cached. case_match; cbn; [by rewrite H | by rewrite lookup_insert_eq].
Qed.

(** The cache after a call that compiled and returned. *)
Lemma compileKernel_Ok srcs name names force flags s s' :
  ¬ cached s name \/ force = true ->
  compileKernel cl srcs name names force flags s = Ok tt s' ->
  built_ s' = built_ s ++ [next_program s srcs flags]
  /\ apps_ (kernel_manager_ s') =
       <[name := {| kernels :=
                      bind_kernels (next_program s srcs flags) names
                        (default ∅ (kernels <$> apps_ (kernel_manager_ s) !! name)) |}]>
         (apps_ (kernel_manager_ s)).
Proof.
  intros Hm H. split.
  { eapply compileKernel_compiles; [done|]. by rewrite H. }
  rewrite compileKernel_miss in H by done. cbv zeta in H.
  case_bool_decide; [done|].
  unfold mbind, M_bind, touch_app, modify in H. cbn in H.
  destruct (apps_ (kernel_manager_ s) !! name) as [app|] eqn:Happ.
  - eapply resolve_kernels_Ok in H; [|cbn; exact Happ]. by rewrite H.
  - eapply resolve_kernels_Ok in H; [|cbn; apply lookup_insert_eq].
    rewrite H. cbn. by rewrite insert_insert_eq.
Qed.

Lemma kernel_lookup name kn k s :
  lookup_kernel (kernel_manager_ s) name kn = Some k -> kernel name kn s = Ok k s.
Proof. intros H. unfold kernel, mbind, M_bind, gets. by rewrite H. Qed.

Lemma compileKernel_Ok_lookup srcs name names force flags s s' kn :
  ¬ cached s name \/ force = true ->
  compileKernel cl srcs name names force flags s = Ok tt s' ->
  kn ∈ names ->
  lookup_kernel (kernel_manager_ s') name kn
  = Some {| k_program := next_program s srcs flags; k_name := kn |}.
Proof.
  intros Hm H Hin. apply compileKernel_Ok in H as [_ H]; [|done].
  unfold lookup_kernel. rewrite H, lookup_insert_eq. cbn.
  by apply lookup_bind_kernels_in.
Qed.

End KernelCache.

(** C1.  A call to [compileKernel] without force-override for a name that
    is cached returns at once in the state it was called in: nothing is
    handed to the device compiler, the cache is as before, and the kernels
    found under that name afterwards are the cached ones, whatever sources
    and flags are supplied.  In particular, when a first call compiled the
    name and returned, a second call without force-override adds no
    compilation to that one and the kernels of the first call are served. *)
Theorem compileKernel_cached_noop cl srcs name names flags s :
  (cached s name ->
     compileKernel cl srcs name names false flags s = Ok tt s
     /\ forall kn k, lookup_kernel (kernel_manager_ s) name kn = Some k ->
          (compileKernel cl srcs name names false flags ;; kernel name kn) s = Ok k s)
  /\ (forall srcs0 names0 flags0 s0,
        ¬ cached s0 name ->
        compileKernel cl srcs0 name names0 false flags0 s0 = Ok tt s ->
        compileKernel cl srcs name names false flags s = Ok tt s
        /\ built_ s = built_ s0 ++ [next_program s0 srcs0 flags0]
        /\ forall kn, kn ∈ names0 ->
             kernel name kn s
             = Ok {| k_program := next_program s0 srcs0 flags0; k_name := kn |} s).
Proof.
  split.
  - intros Hc. split; [by apply compileKernel_hit|].
    intros kn k Hk. erewrite bind_Ok by (by apply compileKernel_hit).
    by apply kernel_lookup.
  - intros srcs0 names0 flags0 s0 Hm H0.
    pose proof (compileKernel_Ok cl _ _ _ _ _ _ _ (or_introl Hm) H0) as [Hb Ha].
    assert (Hc : cached s name).
    { unfold cached. rewrite Ha, lookup_insert_eq. by eexists. }
    split; [by apply compileKernel_hit|]. split; [done|].
    intros kn Hkn. apply kernel_lookup.
    by eapply compileKernel_Ok_lookup; [left| |].
Qed.

Lemma compileKernel_cached_noop_witness :
  (compileKernel Demo.runtime ["kernel void c(){}"] "p" ["c"] false "-DN=1" Demo.compiled
   = Ok tt Demo.compiled)
  /\ length (built_ Demo.compiled) = 1%nat
  /\ kernel "p" "a" Demo.compiled
     = Ok {| k_program := next_program (fresh_backend "kernels/")
                            ["kernel void a(){} kernel void b(){}"] EmptyString;
             k_name := "a" |} Demo.compiled.
Proof.
  pose proof (compileKernel_cached_noop Demo.runtime ["kernel void c(){}"] "p" ["c"]
                "-DN=1" Demo.compiled) as [HA HB].
  split.
  - refine (proj1 (HA _)). vm_compute. by eexists.
  - specialize (HB ["kernel void a(){} kernel void b(){}"] ["a"; "b"] EmptyString
                   (fresh_backend "kernels/")).
    destruct HB as (_ & Hb & Hk).
    + vm_compute. intros [? [=]].
    + vm_compute. reflexivity.
    + split; [by rewrite Hb|]. apply Hk. constructor.
Defined.

(** C4.  When an entry point does not resolve, the call throws, and the
    cache is not as it was before the call: the program name has an entry,
    with the kernels resolved before the missing one.  A later call
    without force-override then finds the name cached and compiles
    nothing. *)
Theorem compileKernel_unresolved_entry_is_kept :
  exists s',
    compileKernel Demo.runtime ["kernel void k(){}"] "p" ["k"; "missing"] false EmptyString
      (fresh_backend "kernels/")
    = Throw "Kernel missing not found in program p" s'
    /\ apps_ (kernel_manager_ (fresh_backend "kernels/")) !! "p" = None
    /\ cached s' "p"
    /\ is_Some (lookup_kernel (kernel_manager_ s') "p" "k")
    /\ compileKernel Demo.runtime ["kernel void k(){}"] "p" ["k"; "missing"] false EmptyString s'
       = Ok tt s'.
Proof.
  eexists. split; [vm_compute; reflexivity|].
  split; [reflexivity|]. split; [vm_compute; by eexists|].
  split; [vm_compute; by eexists|]. vm_compute. reflexivity.
Qed.

(** C6 (as stated) fails for the entry points that the forcing call does
    not name: after program ["p"] is compiled from source A with the
    kernels ["a"] and ["b"] and then recompiled with force-override from
    source B with the kernel ["a"] alone, the kernel found for ["b"] is
    still the one of the first program. *)
Lemma compileKernel_force_keeps_old_kernels :
  exists s' k,
    compileKernel Demo.runtime ["kernel void a(){}"] "p" ["a"] true EmptyString Demo.compiled
    = Ok tt s'
    /\ kernel "p" "b" s' = Ok k s'
    /\ k_program k = next_program (fresh_backend "kernels/")
                       ["kernel void a(){} kernel void b(){}"] EmptyString
    /\ k_program k <> next_program Demo.compiled ["kernel void a(){}"] EmptyString.
Proof.
  eexists _, _. split; [vm_compute; reflexivity|].
  split; [vm_compute; reflexivity|]. split; [reflexivity|]. by vm_compute.
Qed.

(** C6 (as amended).  A call to [compileKernel] with force-override always
    hands a new program to the device compiler, also when the name is
    cached; the program is none of those compiled before; and when the
    call returns, the kernel found under that program name for each of the
    entry points named in the call is a kernel of the new program. *)
Theorem compileKernel_force cl srcs name names flags s :
  (exists s', final_state (compileKernel cl srcs name names true flags s) = Some s'
              /\ built_ s' = built_ s ++ [next_program s srcs flags])
  /\ (built_ok s -> next_program s srcs flags ∉ built_ s)
  /\ (forall s', compileKernel cl srcs name names true flags s = Ok tt s' ->
        forall kn, kn ∈ names ->
          kernel name kn s'
          = Ok {| k_program := next_program s srcs flags; k_name := kn |} s').
Proof.
  split; [|split].
  - assert (exists s', final_state (compileKernel cl srcs name names true flags s) = Some s')
      as [s' Hs'].
    { rewrite compileKernel_miss by (by right). cbv zeta.
      case_bool_decide; [by eexists|].
      unfold mbind, M_bind, touch_app, modify. cbn.
      generalize (match apps_ (kernel_manager_ s) !! name with
                  | Some _ => with_built (built_ s ++ [next_program s srcs flags]) s
                  | None => with_apps (<[name:={| kernels := ∅ |}]> (apps_ (kernel_manager_ s)))
                              (with_built (built_ s ++ [next_program s srcs flags]) s)
                  end).
      induction names as [|n ns IH]; intros s1; cbn; [by eexists|].
      case_bool_decide; [by eexists|].
      unfold mbind, M_bind, set_kernel, modify. cbn. apply IH. }
    exists s'. split; [done|]. eapply compileKernel_compiles; [by right | done].
  - intros Hok Hin. apply list_elem_of_lookup in Hin as [i Hi].
    pose proof (Hok _ _ Hi) as Hid. cbn in Hid.
    apply lookup_lt_Some in Hi. lia.
  - intros s' H kn Hkn. apply kernel_lookup.
    by eapply compileKernel_Ok_lookup; [right| |].
Qed.

Lemma compileKernel_force_witness :
(next_program Demo.compiled ["kernel void a(){}"] EmptyString ∉ built_ Demo.compiled)
  /\ kernel "p" "a" (Demo.after Demo.runtime
                       [CompileKernel ["kernel void a(){}"] "p" ["a"] true EmptyString] Demo.compiled)
     = Ok {| k_program := next_program Demo.compiled ["kernel void a(){}"] EmptyString;
             k_name := "a" |}
          (Demo.after Demo.runtime
             [CompileKernel ["kernel void a(){}"] "p" ["a"] true EmptyString] Demo.compiled).
Proof.
  pose proof (compileKernel_force Demo.runtime ["kernel void a(){}"] "p" ["a"] EmptyString
                Demo.compiled) as (_ & Hnew & Hk).
  split.
  - apply Hnew. intros i p. vm_compute.
    destruct i as [|[|i]]; intros [=]; subst; reflexivity.
  - apply Hk; [vm_compute; reflexivity | constructor].
Defined.

(** ** Tensor life cycle *)

Section Tensors.

Context (cl : Runtime).

Lemma allocBuffer_cases n s :
  (exists w, allocBuffer cl n s = Throw w s)
  \/ allocBuffer cl n s
     = Ok {| buf_id := allocated_ s; buf_bytes := n |} (with_allocated (S (allocated_ s)) s).
Proof.
  unfold allocBuffer, mbind, M_bind, gets, modify, throw. cbn.
  case_bool_decide; [by right | left; by eexists].
Qed.


(** The outcomes of [createTensor]: it reads past the end of [data], or
    throws before the tensor exists, or returns the next address, holding a
    tensor of the shape and type asked for over a buffer that it has just
    allocated. *)
Lemma createTensor_cases sh dt data s :
  (createTensor cl sh dt data s = Fatal /\ data <> None)
  \/ (exists w s', createTensor cl sh dt data s = Throw w s'
      /\ tensors_ s' = tensors_ s /\ next_tensor_ s' = next_tensor_ s
      /\ (allocated_ s <= allocated_ s')%nat
      /\ kernel_manager_ s' = kernel_manager_ s /\ built_ s' = built_ s
      /\ kernel_root_ s' = kernel_root_ s)
  \/ (exists elem s',
        createTensor cl sh dt data s = Ok (next_tensor_ s) s'
        /\ dtypeToSize dt = Some elem
        /\ tensors_ s' = <[next_tensor_ s :=
              OpenCLTensor sh dt {| buf_id := allocated_ s;
                                    buf_bytes := size_t_of (volume sh * elem) |}]>
              (tensors_ s)
        /\ next_tensor_ s' = S (next_tensor_ s)
        /\ allocated_ s' = S (allocated_ s)
        /\ kernel_manager_ s' = kernel_manager_ s /\ built_ s' = built_ s
        /\ kernel_root_ s' = kernel_root_ s).
Proof.
  unfold createTensor.
  destruct dt; cbn [dtypeToSize]; [right; left; by eexists _, _|..].
  all: erewrite bind_Ok by reflexivity; erewrite bind_Ok by reflexivity.
  all: match goal with
       | |- context [mbind _ (allocBuffer _ ?n) ?s0] =>
           destruct (allocBuffer_cases n s0) as [[w Ha]|Ha]
       end;
       [right; left; erewrite bind_Throw by exact Ha; eexists _, _;
        repeat split; first [reflexivity | cbn; lia] |].
  all: erewrite bind_Ok by exact Ha.
  all: destruct data as [bytes|];
    cbv beta iota zeta delta [mbind M_bind mret M_ret enqueue gets modify new_tensor throw
                              fatal];
    repeat (case_bool_decide; cbv beta iota zeta);
    first [ left; split; [reflexivity | discriminate]
          | right; left; eexists _, _; repeat split; first [reflexivity | cbn; lia]
          | right; right; eexists _, _; repeat split; reflexivity ].
Qed.

(** The outcomes of [copy], in the same way. *)
Lemma copy_cases px s :
  copy cl px s = Fatal
  \/ (exists w s', copy cl px s = Throw w s'
      /\ tensors_ s' = tensors_ s /\ next_tensor_ s' = next_tensor_ s
      /\ (allocated_ s <= allocated_ s')%nat
      /\ kernel_manager_ s' = kernel_manager_ s /\ built_ s' = built_ s
      /\ kernel_root_ s' = kernel_root_ s)
  \/ (exists sh dt bx elem s',
        copy cl px s = Ok (next_tensor_ s) s'
        /\ tensors_ s !! px = Some (OpenCLTensor sh dt bx)
        /\ dtypeToSize dt = Some elem
        /\ tensors_ s' = <[next_tensor_ s :=
              OpenCLTensor sh dt {| buf_id := allocated_ s;
                                    buf_bytes := size_t_of (volume sh * elem) |}]>
              (tensors_ s)
        /\ next_tensor_ s' = S (next_tensor_ s)
        /\ allocated_ s' = S (allocated_ s)
        /\ kernel_manager_ s' = kernel_manager_ s /\ built_ s' = built_ s
        /\ kernel_root_ s' = kernel_root_ s).
Proof.
  unfold copy, deref.
  cbv beta iota zeta delta [mbind M_bind mret M_ret gets defined fatal].
  destruct (tensors_ s !! px) as [[sh dt bx|sh dt]|] eqn:Hx; cbv beta iota.
  - cbv beta iota zeta delta [et_assert points_to_OpenCLTensor byte_size dtype shape size
                              mret M_ret throw].
    destruct (dtypeToSize dt) as [elem|] eqn:He.
    + match goal with
      | |- context [allocBuffer _ ?n ?s0] =>
          destruct (allocBuffer_cases n s0) as [[w Ha]|Ha]; rewrite Ha
      end.
      * right; left. eexists _, _. repeat split; first [reflexivity | cbn; lia].
      * cbv beta iota zeta delta [mbind M_bind mret M_ret enqueue gets modify new_tensor
                                  throw buffer].
        case_bool_decide; cbv beta iota zeta.
        -- right; left. eexists _, _. repeat split; first [reflexivity | cbn; lia].
        -- right; right. eexists sh, dt, bx, elem, _. rewrite He.
           repeat split; reflexivity.
    + right; left. eexists _, _. repeat split; first [reflexivity | cbn; lia].
  - right; left. eexists _, _. repeat split; first [reflexivity | cbn; lia].
  - by left.
Qed.

End Tensors.

(** ** Footprints of the calls *)

#[global] Instance preserved_preorder I : PreOrder (preserved I).
Proof.
  split; [intros s H; exact H | intros s1 s2 s3 H1 H2 H; exact (H2 (H1 H))].
Qed.

#[global] Instance heap_evolves_preorder : PreOrder heap_evolves.
Proof.
  split.
  - intros s. split; [lia | auto].
  - intros s1 s2 s3 [Hn1 H1] [Hn2 H2]. split; [lia|].
    intros p t Hp Hlt. apply H1; [|done]. apply H2; [done | lia].
Qed.

Section Footprints.

Context (cl : Runtime) (R : relation OpenCLBackend) `{!Footprint R}.

Lemma fp_enqueue c : frame R (enqueue cl c).
Proof. apply frame_enqueue; [exact _ | apply fp_queue]. Qed.

Lemma fp_allocBuffer n : frame R (allocBuffer cl n).
Proof. apply frame_allocBuffer; [exact _ | apply fp_alloc]. Qed.

Lemma fp_compileKernel srcs name names force flags :
  frame R (compileKernel cl srcs name names force flags).
Proof. apply frame_compileKernel; [exact _ | apply fp_apps | apply fp_built]. Qed.

Lemma fp_compileFromFile_path path name names force flags :
  frame R (compileFromFile_path cl path name names force flags).
Proof.
  apply frame_compileFromFile_path; [exact _ | apply fp_apps | intros; apply fp_built].
Qed.

Hint Resolve fp_enqueue fp_allocBuffer fp_compileKernel fp_compileFromFile_path : frame.

Lemma fp_compileKernel_one src name kn force flags :
  frame R (compileKernel_one cl src name kn force flags).
Proof. unfold compileKernel_one, compileKernel_src, exists_. frame_steps. Qed.

Lemma fp_releaseTensor p : frame R (releaseTensor p).
Proof. unfold releaseTensor. frame_steps. apply frame_modify. apply fp_delete. Qed.

Lemma fp_copyToHost p : frame R (copyToHost cl p).
Proof. unfold copyToHost. frame_steps. destruct a; frame_steps. Qed.

Lemma fp_sync : frame R (sync cl).
Proof. unfold sync. frame_steps. Qed.

Hint Resolve fp_releaseTensor fp_copyToHost fp_sync : frame.

(** Every call respects a footprint that creating a tensor respects. *)
Lemma fp_run :
  (forall sh dt data, frame R (createTensor cl sh dt data)) ->
  (forall px, frame R (copy cl px)) ->
  forall c, frame R (run cl c).
Proof.
  intros Hcreate Hcopy c.
  destruct c; cbn [run];
    unfold cast, overlapScore, globalInhibition, learnCorrilation, sortSynapse;
    frame_steps.
Qed.

End Footprints.


(** ** Inversion of the steps of a method *)

Lemma gets_Ok_inv {A} (f : OpenCLBackend -> A) s a s' :
  gets f s = Ok a s' -> s' = s /\ a = f s.
Proof. by intros [= <- <-]. Qed.

Lemma defined_Ok_inv {A} (o : option A) s a s' :
  defined o s = Ok a s' -> s' = s /\ o = Some a.
Proof. destruct o; [by intros [= <- <-] | done]. Qed.

Lemma et_assert_Ok_inv c e s u s' :
  et_assert c e s = Ok u s' -> s' = s /\ c = true.
Proof. destruct c; [by intros [= <-] | done]. Qed.

Lemma deref_Ok_inv p s t s' :
  deref p s = Ok t s' -> s' = s /\ tensors_ s !! p = Some t.
Proof.
  unfold deref. intros H.
  apply bind_Ok_inv in H as (o & s1 & [-> ->]%gets_Ok_inv & H).
  by apply defined_Ok_inv in H.
Qed.

Lemma deref_Ok p s t : tensors_ s !! p = Some t -> deref p s = Ok t s.
Proof. intros H. unfold deref, mbind, M_bind, gets. by rewrite H. Qed.

Lemma buffer_Ok_inv t s b s' :
  buffer t s = Ok b s' -> s' = s /\ exists sh dt, t = OpenCLTensor sh dt b.
Proof. destruct t; [intros [= <- <-]; eauto | done]. Qed.

Lemma kernel_Ok_inv name kn s k s' :
  kernel name kn s = Ok k s' ->
  s' = s /\ lookup_kernel (kernel_manager_ s) name kn = Some k.
Proof.
  unfold kernel. intros H.
  apply bind_Ok_inv in H as (o & s1 & [-> ->]%gets_Ok_inv & H).
  by apply defined_Ok_inv in H.
Qed.

Lemma enqueue_eq cl c s :
  enqueue cl c s = Ok (cl_enqueue cl (queue_ s) c)
                      (with_queue (queue_ s ++ [(c, cl_enqueue cl (queue_ s) c)]) s).
Proof. reflexivity. Qed.

Lemma allocBuffer_Ok_inv cl n s b s' :
  allocBuffer cl n s = Ok b s' ->
  b = {| buf_id := allocated_ s; buf_bytes := n |}
  /\ s' = with_allocated (S (allocated_ s)) s.
Proof.
  destruct (allocBuffer_cases cl n s) as [[w ->]| ->]; [done|]. by intros [= <- <-].
Qed.

Lemma createTensor_Ok_inv cl sh dt data s p s' :
  createTensor cl sh dt data s = Ok p s' ->
  exists elem,
    dtypeToSize dt = Some elem /\ p = next_tensor_ s
    /\ tensors_ s' = <[p := OpenCLTensor sh dt
                         {| buf_id := allocated_ s;
                            buf_bytes := size_t_of (volume sh * elem) |}]> (tensors_ s)
    /\ next_tensor_ s' = S p /\ allocated_ s' = S (allocated_ s)
    /\ kernel_manager_ s' = kernel_manager_ s.
Proof.
  destruct (createTensor_cases cl sh dt data s) as
    [[-> _]|[(w & s1 & -> & _)|(elem & s1 & -> & He & Ht & Hn & Ha & Hk & _)]];
    [done..|].
  intros [= <- <-]. by exists elem.
Qed.

Lemma compileFromFile_path_beside cl path name names force flags s s' :
  final_state (compileFromFile_path cl path name names force flags s) = Some s' ->
  beside_cache s' = beside_cache s.
Proof.
  pose proof (frame_compileFromFile_path cl
    (fun s s' => beside_cache s' = beside_cache s) path name names force flags) as Hf.
  apply Hf; by intros.
Qed.

Lemma Ok_final {A} (o : Outcome A) a s' : o = Ok a s' -> final_state o = Some s'.
Proof. by intros ->. Qed.

Lemma compileFromFile_path_Ok_beside cl path name names force flags s u s' :
  compileFromFile_path cl path name names force flags s = Ok u s' ->
  beside_cache s' = beside_cache s.
Proof. intros H. eapply compileFromFile_path_beside, Ok_final, H. Qed.

(** Take the first step off a method that returned. *)
Ltac inv_step H :=
  let a := fresh "a" in
  let s1 := fresh "s" in
  let Hs := fresh "Hs" in
  apply bind_Ok_inv in H as (a & s1 & Hs & H);
  first
    [ apply deref_Ok_inv in Hs as [-> Hs]
    | apply et_assert_Ok_inv in Hs as [-> Hs]
    | apply gets_Ok_inv in Hs as [-> ->]
    | apply defined_Ok_inv in Hs as [-> Hs]
    | apply buffer_Ok_inv in Hs as [-> (? & ? & ->)]
    | apply kernel_Ok_inv in Hs as [-> Hs]
    | rewrite enqueue_eq in Hs; injection Hs as <- <-
    | apply allocBuffer_Ok_inv in Hs as [-> ->]
    | let Hb := fresh "Hb" in
      pose proof (compileFromFile_path_Ok_beside _ _ _ _ _ _ _ _ _ Hs) as Hb;
      unfold beside_cache in Hb; injection Hb as ? ? ? ? ?
    | idtac ].

(** Take every step off a method that returned. *)
Ltac inv_steps H :=
  repeat inv_step H;
  try (case_bool_decide; [discriminate H|]);
  try (injection H as <-);
  repeat match goal with u : unit |- _ => destruct u end.

(** ** The tensors a call creates *)

Section Cast.

Context (cl : Runtime).

Lemma cast_Ok_inv px toType s res s' :
  cast cl px toType s = Ok res s' ->
  exists x elem,
    tensors_ s !! px = Some x /\ points_to_OpenCLTensor x = true
    /\ dtypeToSize toType = Some elem /\ res = next_tensor_ s
    /\ tensors_ s' = <[res := OpenCLTensor (shape x) toType
                         {| buf_id := allocated_ s;
                            buf_bytes := size_t_of (volume (shape x) * elem) |}]>
                       (tensors_ s)
    /\ next_tensor_ s' = S res /\ allocated_ s' = S (allocated_ s).
Proof.
  unfold cast. intros H.
  do 6 inv_step H.
  match goal with
  | Hc : createTensor _ _ _ _ _ = Ok _ _ |- _ =>
      apply createTensor_Ok_inv in Hc as (elem & He & -> & Ht & Hn & Ha & _)
  end.
  do 4 inv_step H. injection H as <- <-.
  eexists _, elem. cbn. repeat split; try done; congruence.
Qed.

End Cast.

(** ** Invariants of the tensor heap *)

Lemma heap_ok_grow s s' :
  heap_ok s -> tensors_ s' = tensors_ s -> next_tensor_ s' = next_tensor_ s ->
  (allocated_ s <= allocated_ s')%nat -> heap_ok s'.
Proof.
  intros H Ht Hn Ha p t Hp. rewrite Ht in Hp. destruct (H p t Hp) as (? & Ho & ?).
  split; [lia|]. split; [|done]. destruct t; cbn in *; [lia | done].
Qed.

Lemma heap_ok_new s s' sh dt elem :
  heap_ok s -> dtypeToSize dt = Some elem ->
  tensors_ s' = <[next_tensor_ s :=
                    OpenCLTensor sh dt {| buf_id := allocated_ s;
                                          buf_bytes := size_t_of (volume sh * elem) |}]>
                  (tensors_ s) ->
  next_tensor_ s' = S (next_tensor_ s) -> allocated_ s' = S (allocated_ s) ->
  heap_ok s'.
Proof.
  intros H He Ht Hn Ha p t Hp. rewrite Ht in Hp.
  destruct (decide (p = next_tensor_ s)) as [->|Hne].
  - rewrite lookup_insert_eq in Hp. injection Hp as <-.
    split; [lia|]. split; [cbn; lia|]. by exists elem.
  - rewrite lookup_insert_ne in Hp by done. destruct (H p t Hp) as (? & Ho & ?).
    split; [lia|]. split; [|done]. destruct t; cbn in *; [lia | done].
Qed.

Lemma heap_evolves_new s s' t :
  tensors_ s' = <[next_tensor_ s := t]> (tensors_ s) ->
  next_tensor_ s' = S (next_tensor_ s) -> heap_evolves s s'.
Proof.
  intros Ht Hn. split; [lia|]. intros p t' Hp Hlt.
  rewrite Ht, lookup_insert_ne in Hp by lia. done.
Qed.

Lemma heap_evolves_same s s' :
  tensors_ s' = tensors_ s -> next_tensor_ s' = next_tensor_ s -> heap_evolves s s'.
Proof. intros Ht Hn. split; [lia|]. intros p t Hp _. by rewrite Ht in Hp. Qed.

#[global] Instance heap_evolves_footprint : Footprint heap_evolves.
Proof.
  split; [exact _ | try (intros; by apply heap_evolves_same) ..].
  intros p s. split; [cbn; lia|]. cbn. intros q t Hq _.
  apply lookup_delete_Some in Hq as [_ Hq]. done.
Qed.

#[global] Instance heap_ok_footprint : Footprint (preserved heap_ok).
Proof.
  split; [exact _ | try (intros; intros H; by apply (heap_ok_grow _ _ H)) ..].
  - intros s H. apply (heap_ok_grow _ _ H); cbn; [done | done | lia].
  - intros p s H q t Hq. cbn in Hq. apply lookup_delete_Some in Hq as [_ Hq].
    apply (H q t Hq).
Qed.

#[global] Instance built_ok_footprint : Footprint (preserved built_ok).
Proof.
  split; [exact _ | try (intros; intros H; exact H) ..].
  intros srcs flags s H i p Hi. cbn in Hi.
  apply lookup_app_Some in Hi as [Hi|[Hlen Hi]]; [by apply H|].
  apply list_lookup_singleton_Some in Hi as [Hi <-]. cbn. lia.
Qed.

Section HeapInvariants.

Context (cl : Runtime).

Lemma createTensor_heap_ok sh dt data :
  frame (preserved heap_ok) (createTensor cl sh dt data).
Proof.
  intros s s' Hf H.
  destruct (createTensor_cases cl sh dt data s) as
    [[Hc _]|[(w & s1 & Hc & Ht & Hn & Ha & _)|(elem & s1 & Hc & He & Ht & Hn & Ha & _)]];
    rewrite Hc in Hf; [done|injection Hf as <-..].
  - by apply (heap_ok_grow s).
  - by apply (heap_ok_new s _ sh dt elem).
Qed.

Lemma copy_heap_ok px : frame (preserved heap_ok) (copy cl px).
Proof.
  intros s s' Hf H.
  destruct (copy_cases cl px s) as
    [Hc|[(w & s1 & Hc & Ht & Hn & Ha & _)
        |(sh & dt & bx & elem & s1 & Hc & Hx & He & Ht & Hn & Ha & _)]];
    rewrite Hc in Hf; [done|injection Hf as <-..].
  - by apply (heap_ok_grow s).
  - by apply (heap_ok_new s _ sh dt elem).
Qed.

Lemma createTensor_heap_evolves sh dt data :
  frame heap_evolves (createTensor cl sh dt data).
Proof.
  intros s s' Hf.
  destruct (createTensor_cases cl sh dt data s) as
    [[Hc _]|[(w & s1 & Hc & Ht & Hn & _)|(elem & s1 & Hc & He & Ht & Hn & _)]];
    rewrite Hc in Hf; [done|injection Hf as <-..].
  - by apply heap_evolves_same.
  - by eapply heap_evolves_new.
Qed.

Lemma copy_heap_evolves px : frame heap_evolves (copy cl px).
Proof.
  intros s s' Hf.
  destruct (copy_cases cl px s) as
    [Hc|[(w & s1 & Hc & Ht & Hn & _)
        |(sh & dt & bx & elem & s1 & Hc & Hx & He & Ht & Hn & _)]];
    rewrite Hc in Hf; [done|injection Hf as <-..].
  - by apply heap_evolves_same.
  - by eapply heap_evolves_new.
Qed.

Lemma createTensor_built_ok sh dt data :
  frame (preserved built_ok) (createTensor cl sh dt data).
Proof.
  intros s s' Hf H.
  destruct (createTensor_cases cl sh dt data s) as
    [[Hc _]|[(w & s1 & Hc & _ & _ & _ & _ & Hb & _)
            |(elem & s1 & Hc & _ & _ & _ & _ & _ & Hb & _)]];
    rewrite Hc in Hf; [done|injection Hf as <-..]; unfold built_ok; by rewrite Hb.
Qed.

Lemma copy_built_ok px : frame (preserved built_ok) (copy cl px).
Proof.
  intros s s' Hf H.
  destruct (copy_cases cl px s) as
    [Hc|[(w & s1 & Hc & _ & _ & _ & _ & Hb & _)
        |(sh & dt & bx & elem & s1 & Hc & _ & _ & _ & _ & _ & _ & Hb & _)]];
    rewrite Hc in Hf; [done|injection Hf as <-..]; unfold built_ok; by rewrite Hb.
Qed.

Lemma run_heap_ok c s s' :
  heap_ok s -> final_state (run cl c s) = Some s' -> heap_ok s'.
Proof.
  intros H Hf. revert H.
  apply (fp_run cl (preserved heap_ok) createTensor_heap_ok copy_heap_ok c s s' Hf).
Qed.

Lemma run_heap_evolves c s s' :
  final_state (run cl c s) = Some s' -> heap_evolves s s'.
Proof.
  apply (fp_run cl heap_evolves createTensor_heap_evolves copy_heap_evolves c s s').
Qed.

Lemma run_built_ok c s s' :
  built_ok s -> final_state (run cl c s) = Some s' -> built_ok s'.
Proof.
  intros H Hf. revert H.
  apply (fp_run cl (preserved built_ok) createTensor_built_ok copy_built_ok c s s' Hf).
Qed.

Lemma construct_state root k s :
  construct cl root = Ok k s -> heap_ok s /\ built_ok s.
Proof.
  intros H. apply Ok_final in H. split.
  - apply (fp_compileKernel_one cl (preserved heap_ok)) in H. apply H.
    intros p t Hp. cbn in Hp. by rewrite lookup_empty in Hp.
  - apply (fp_compileKernel_one cl (preserved built_ok)) in H. apply H.
    intros i p Hp. cbn in Hp. by rewrite lookup_nil in Hp.
Qed.

Lemma reachable_ok s : reachable cl s -> heap_ok s /\ built_ok s.
Proof.
  induction 1 as [root k s H|s s' _ [IH1 IH2] [c Hc]].
  - by eapply construct_state.
  - split; [by eapply run_heap_ok | by eapply run_built_ok].
Qed.

End HeapInvariants.

Lemma volume_nonneg sh : 0 <= volume sh.
Proof.
  unfold volume. generalize 1 (Z.le_0_1). induction sh as [|d sh IH]; intros acc Hacc; cbn.
  - done.
  - apply IH. unfold size_t_of, SIZE_T_MOD. apply Z.mod_pos_bound. lia.
Qed.

(** When the product fits in [size_t], the byte size is the product. *)
Lemma sized_exact sh dt buf elem :
  sized (OpenCLTensor sh dt buf) -> dtypeToSize dt = Some elem ->
  volume sh * elem < SIZE_T_MOD -> buf_bytes buf = volume sh * elem.
Proof.
  intros (e & He & Hb) He' Hfit. rewrite He in He'. injection He' as ->.
  rewrite Hb. unfold size_t_of. apply Z.mod_small. split; [|done].
  pose proof (volume_nonneg sh). destruct dt; cbn in He; simplify_eq; lia.
Qed.

Lemma copy_Ok_inv cl px s p s' :
  copy cl px s = Ok p s' ->
  exists sh dt bx elem,
    tensors_ s !! px = Some (OpenCLTensor sh dt bx) /\ dtypeToSize dt = Some elem
    /\ p = next_tensor_ s
    /\ tensors_ s' = <[p := OpenCLTensor sh dt
                         {| buf_id := allocated_ s;
                            buf_bytes := size_t_of (volume sh * elem) |}]> (tensors_ s).
Proof.
  destruct (copy_cases cl px s) as
    [Hc|[(w & s1 & Hc & _)|(sh & dt & bx & elem & s1 & Hc & Hx & He & Ht & _)]];
    rewrite Hc; [done..|].
  intros [= <- <-]. by exists sh, dt, bx, elem.
Qed.

(** The [size_t] volume is the product of the dimensions modulo 2^64. *)
Lemma volume_mod sh : volume sh = volume_rule sh mod SIZE_T_MOD.
Proof.
  unfold volume.
  enough (forall acc, fold_left (fun acc d => size_t_of (acc * d)) sh (acc mod SIZE_T_MOD)
                      = (acc * volume_rule sh) mod SIZE_T_MOD) as H.
  { specialize (H 1). rewrite Z.mul_1_l in H. rewrite <- H. reflexivity. }
  induction sh as [|d sh IH]; intros acc; cbn.
  - by rewrite Z.mul_1_r.
  - change (size_t_of (acc mod SIZE_T_MOD * d))
      with ((acc mod SIZE_T_MOD * d) mod SIZE_T_MOD).
    rewrite IH, <- Z.mul_assoc. by rewrite Z.mul_mod_idemp_l by (unfold SIZE_T_MOD; lia).
Qed.

Lemma byte_size_mod sh elem :
  size_t_of (volume sh * elem) = (volume_rule sh * elem) mod SIZE_T_MOD.
Proof.
  unfold size_t_of. rewrite volume_mod.
  by rewrite Z.mul_mod_idemp_l by (unfold SIZE_T_MOD; lia).
Qed.

Lemma sized_fits t : sized t -> fits t -> sized_rule t.
Proof.
  destruct t as [sh dt buf|]; [|done]. intros (elem & He & Hb) Hfit.
  exists elem. split; [done|]. rewrite Hb, byte_size_mod.
  apply Z.mod_small. by apply Hfit.
Qed.

(** C9 (as amended).  A tensor that [createTensor], [copy] or [cast]
    returns has a buffer whose byte size is the [size_t] product
    [volume(shape) * size_of(dtype)] that the code computes; that is the
    product of the dimensions and the element size modulo 2^64, and the
    product itself when it is a [size_t]; every call leaves each tensor of
    the heap as it was, shape, type and buffer, unless it releases it; and
    in every state the backend can reach every tensor of the heap has a
    buffer of that size, the size of the specification when that is a
    [size_t]. *)
Theorem tensor_buffer_size cl :
  (forall sh dt data s p s', createTensor cl sh dt data s = Ok p s' ->
     exists buf elem,
       tensors_ s' !! p = Some (OpenCLTensor sh dt buf)
       /\ dtypeToSize dt = Some elem
       /\ buf_bytes buf = size_t_of (volume sh * elem))
  /\ (forall px s p s', copy cl px s = Ok p s' ->
     exists x buf elem,
       tensors_ s !! px = Some x
       /\ tensors_ s' !! p = Some (OpenCLTensor (shape x) (dtype x) buf)
       /\ dtypeToSize (dtype x) = Some elem
       /\ buf_bytes buf = size_t_of (volume (shape x) * elem))
  /\ (forall px toType s p s', cast cl px toType s = Ok p s' ->
     exists x buf elem,
       tensors_ s !! px = Some x
       /\ tensors_ s' !! p = Some (OpenCLTensor (shape x) toType buf)
       /\ dtypeToSize toType = Some elem
       /\ buf_bytes buf = size_t_of (volume (shape x) * elem))
  /\ (forall sh elem,
        size_t_of (volume sh * elem) = (volume_rule sh * elem) mod SIZE_T_MOD
        /\ (0 <= volume_rule sh * elem < SIZE_T_MOD ->
            size_t_of (volume sh * elem) = volume_rule sh * elem))
  /\ (forall c s s', heap_ok s -> final_state (run cl c s) = Some s' ->
        heap_ok s'
        /\ forall p t, tensors_ s !! p = Some t ->
             tensors_ s' !! p = Some t \/ tensors_ s' !! p = None)
  /\ (forall s, reachable cl s ->
        forall p t, tensors_ s !! p = Some t ->
          sized t /\ (fits t -> sized_rule t)).
Proof.
  repeat apply conj.
  - intros sh dt data s p s' H.
    apply createTensor_Ok_inv in H as (elem & He & -> & Ht & _).
    eexists _, elem. rewrite Ht, lookup_insert_eq. done.
  - intros px s p s' H.
    apply copy_Ok_inv in H as (sh & dt & bx & elem & Hx & He & -> & Ht).
    eexists _, _, elem. rewrite Ht, lookup_insert_eq. split; [done|]. done.
  - intros px toType s p s' H.
    apply cast_Ok_inv in H as (x & elem & Hx & _ & He & -> & Ht & _).
    eexists _, _, elem. rewrite Ht, lookup_insert_eq. done.
  - intros sh elem. split; [apply byte_size_mod|].
    intros Hfit. rewrite byte_size_mod. by apply Z.mod_small.
  - intros c s s' Hok Hf. split; [by eapply run_heap_ok|].
    intros p t Hp. destruct (Hok p t Hp) as [Hlt _].
    destruct (run_heap_evolves cl c s s' Hf) as [_ Hev].
    destruct (tensors_ s' !! p) as [t'|] eqn:Hp'; [|by right].
    left. specialize (Hev p t' Hp' Hlt). congruence.
  - intros s Hr p t Hp. apply (reachable_ok cl) in Hr as [Hok _].
    destruct (Hok p t Hp) as (_ & _ & Hs). split; [done | by apply sized_fits].
Qed.

Lemma tensor_buffer_size_witness :
  (exists buf elem,
     tensors_ (Demo.tensors Demo.runtime) !! 3%nat
     = Some (OpenCLTensor [8150] DType.Int32 buf)
     /\ dtypeToSize DType.Int32 = Some elem
     /\ buf_bytes buf = size_t_of (volume [8150] * elem))
  /\ heap_ok (Demo.tensors Demo.runtime).
Proof.
  pose proof (tensor_buffer_size Demo.runtime) as (Hcreate & _ & _ & _ & Hrun & _).
  split.
  - apply (Hcreate [8150] DType.Int32 None
             (Demo.after Demo.runtime
                [CreateTensor [8150] DType.Bool None;
                 CreateTensor [8150; 32] DType.Int32 None;
                 CreateTensor [8150; 32] DType.Float None]
                (fresh_backend "kernels/"))).
    vm_compute. reflexivity.
  - assert (H0 : heap_ok (fresh_backend "kernels/")).
    { intros p t Hp. cbn in Hp. by rewrite lookup_empty in Hp. }
    unfold Demo.tensors, Demo.after. cbn [foldl].
    repeat match goal with
    | |- heap_ok (default ?s (final_state (run ?cl ?c ?s))) =>
        let o := eval vm_compute in (final_state (run cl c s)) in
        match o with
        | Some ?s1 =>
            apply (fun H => proj1 (Hrun c s (default s (final_state (run cl c s))) H
                                     ltac:(vm_compute; reflexivity)))
        end
    end.
    exact H0.
Defined.

(** C9 (as stated) fails where the product of the dimensions and the
    element size is not a [size_t]: a backend that was constructed and asked
    for a tensor of 2^62+1 elements of four bytes holds that tensor over a
    buffer of four bytes, while the size of the specification is 2^64+4. *)
Lemma tensor_buffer_size_fails :
  reachable Demo.runtime overflowing
  /\ tensors_ overflowing !! 0%nat
     = Some (OpenCLTensor [4611686018427387905] DType.Int32
               {| buf_id := 0; buf_bytes := 4 |})
  /\ volume_rule [4611686018427387905] * 4 = 18446744073709551620
  /\ ~ sized_rule (OpenCLTensor [4611686018427387905] DType.Int32
                     {| buf_id := 0; buf_bytes := 4 |}).
Proof.
  split; [|split; [|split]].
  - eapply reachable_step.
    + eapply (reachable_construct Demo.runtime "kernels/"). vm_compute. reflexivity.
    + exists (CreateTensor [4611686018427387905] DType.Int32 None).
      vm_compute. reflexivity.
  - vm_compute. reflexivity.
  - reflexivity.
  - intros (elem & He & Hb). injection He as <-. discriminate Hb.
Qed.




(** ** Program names *)

Lemma hex_inj n m : hex n = hex m -> n = m.
Proof.
  unfold hex. intros H.
  apply (f_equal HexadecimalString.NilEmpty.uint_of_string) in H.
  rewrite !HexadecimalString.NilEmpty.usu in H. injection H as H.
  apply (f_equal N.of_hex_uint) in H.
  by rewrite !HexadecimalN.Unsigned.of_to in H.
Qed.

Lemma append_inv_head p a b : p +:+ a = p +:+ b -> a = b.
Proof. induction p as [|c p IH]; cbn; [done | intros [= H]; auto]. Qed.

Lemma program_name_hash cl sp1 sp2 :
  program_name cl sp1 = program_name cl sp2 ->
  std_hash cl (flags_of cl sp1) = std_hash cl (flags_of cl sp2).
Proof.
  destruct sp1, sp2; unfold program_name, overlapScore_program_name,
    globalInhibition_program_name, cast_program_name, learnCorrilation_program_name,
    sortSynapse_program_name, hash_string;
    intros H; try (by apply append_inv_head, hex_inj in H); cbn in H; discriminate.
Qed.

#[global] Instance only_name_preorder name : PreOrder (only_name name).
Proof.
  split; [by intros s n | intros s1 s2 s3 H1 H2 n Hn].
  by rewrite H2, H1.
Qed.

Section Registers.

Context (cl : Runtime).

Lemma compileKernel_Ok_cached srcs name names force flags s s' :
  compileKernel cl srcs name names force flags s = Ok tt s' -> cached s' name.
Proof.
  intros H. destruct (decide (cached s name)) as [Hc|Hc], force eqn:Hf.
  - apply compileKernel_Ok in H as [_ H]; [|by right].
    unfold cached. rewrite H, lookup_insert_eq. by eexists.
  - rewrite compileKernel_hit in H by done. by injection H as <-.
  - apply compileKernel_Ok in H as [_ H]; [|by right].
    unfold cached. rewrite H, lookup_insert_eq. by eexists.
  - apply compileKernel_Ok in H as [_ H]; [|by left].
    unfold cached. rewrite H, lookup_insert_eq. by eexists.
Qed.

Lemma compileFromFile_path_Ok_cached path name names force flags s s' :
  compileFromFile_path cl path name names force flags s = Ok tt s' ->
  cached s' name /\ only_name name s s'.
Proof.
  intros H. split.
  - unfold compileFromFile_path, compileFromFile in H.
    apply bind_Ok_inv in H as (srcs & s1 & Hr & H).
    by apply compileKernel_Ok_cached in H.
  - apply Ok_final in H.
    pose proof (frame_compileFromFile_path cl (only_name name) path name names
                  force flags) as Hf.
    apply Hf; [|by intros|done].
    intros app s0 n Hn. cbn. by rewrite lookup_insert_ne.
Qed.

(** What a call that returned has done to the cache, given the steps it
    took: the compilation [Hc] is the only step that touches the cache. *)
Ltac registers Hn :=
  unfold program_name_of, specialization_of in Hn;
  cbn in Hn;
  repeat (match goal with
          | Hl : _ !! _ = Some _ |- _ => rewrite Hl in Hn
          | Hl : last _ = Some _ |- _ => cbn in Hl; rewrite Hl in Hn
          end; cbn in Hn);
  injection Hn as <-;
  match goal with
  | Hc : compileFromFile_path _ _ _ _ _ _ _ = Ok _ _ |- _ =>
      apply compileFromFile_path_Ok_cached in Hc; exact Hc
  end.

Lemma overlapScore_registers px pc pp cp th py_ u s s' n :
  overlapScore cl px pc pp cp th py_ u s = Ok tt s' ->
  program_name_of cl s (OverlapScore px pc pp cp th py_ u) = Some n ->
  cached s' n /\ only_name n s s'.
Proof. unfold overlapScore. intros H Hn. inv_steps H. registers Hn. Qed.

Lemma globalInhibition_registers px py_ f s s' n :
  globalInhibition cl px py_ f s = Ok tt s' ->
  program_name_of cl s (GlobalInhibition px py_ f) = Some n ->
  cached s' n /\ only_name n s s'.
Proof. unfold globalInhibition. intros H Hn. inv_steps H. registers Hn. Qed.

Lemma learnCorrilation_registers px pl pc pp i d s s' n :
  learnCorrilation cl px pl pc pp i d s = Ok tt s' ->
  program_name_of cl s (LearnCorrilation px pl pc pp i d) = Some n ->
  cached s' n /\ only_name n s s'.
Proof. unfold learnCorrilation. intros H Hn. inv_steps H. registers Hn. Qed.

Lemma sortSynapse_registers pc pp s s' n :
  sortSynapse cl pc pp s = Ok tt s' ->
  program_name_of cl s (SortSynapse pc pp) = Some n ->
  cached s' n /\ only_name n s s'.
Proof. unfold sortSynapse. intros H Hn. inv_steps H. registers Hn. Qed.

Lemma cast_registers px toType s res s' n :
  cast cl px toType s = Ok res s' ->
  program_name_of cl s (Cast px toType) = Some n ->
  cached s' n /\ only_name n s s'.
Proof.
  unfold cast. intros H Hn. do 6 inv_step H.
  match goal with
  | Hc : createTensor _ _ _ _ _ = Ok _ _ |- _ =>
      apply createTensor_Ok_inv in Hc as (elem & _ & _ & _ & _ & _ & Hk)
  end.
  inv_steps H.
  unfold program_name_of, specialization_of in Hn.
  rewrite Hs in Hn. cbn in Hn. injection Hn as <-.
  match goal with
  | Hc : compileFromFile_path _ _ _ _ _ _ _ = Ok _ _ |- _ =>
      apply compileFromFile_path_Ok_cached in Hc as [Hc1 Hc2]
  end.
  subst s'. unfold cached, only_name in *. cbn. rewrite Hk. done.
Qed.

Lemma run_registers c s s' n :
  run cl c s = Ok tt s' -> program_name_of cl s c = Some n ->
  cached s' n /\ only_name n s s'.
Proof.
  destruct c; cbn [run]; try (intros _ [=]; fail).
  - intros H Hn. apply bind_Ok_inv in H as (res & s1 & H & [= <-]).
    by eapply cast_registers.
  - apply overlapScore_registers.
  - apply globalInhibition_registers.
  - apply learnCorrilation_registers.
  - apply sortSynapse_registers.
Qed.

End Registers.

Lemma uint_no_space d : no_space (DecimalString.NilEmpty.string_of_uint d).
Proof. induction d; cbn; try split; done. Qed.

Lemma to_string_no_space z : no_space (to_string z).
Proof.
  unfold to_string. destruct (Z.to_int z) as [d|d]; cbn.
  - destruct d; try apply uint_no_space. cbn. done.
  - split; [done|]. destruct d; try apply uint_no_space. cbn. done.
Qed.

Lemma split_at_space a b r1 r2 :
  no_space a -> no_space b ->
  a +:+ String " " r1 = b +:+ String " " r2 -> a = b /\ r1 = r2.
Proof.
  revert b. induction a as [|c a IH]; intros [|c' b] Ha Hb H; cbn in *.
  - by injection H as ->.
  - injection H as <- _. by destruct Hb.
  - injection H as -> _. by destruct Ha.
  - injection H as -> H. destruct Ha, Hb.
    destruct (IH b) as [-> ->]; done.
Qed.

(** The flag strings of globalInhibition and of overlapScore are never the
    same. *)
Lemma globalInhibition_args_differ n n' m u :
  globalInhibition_args n <> overlapScore_args n' m u.
Proof.
  unfold globalInhibition_args, overlapScore_args. intros H.
  apply append_inv_head in H. cbn in H.
  apply split_at_space in H as [_ H]; [|apply to_string_no_space..].
  discriminate H.
Qed.

(** C7.  The program name of a call is a function of its specialization
    parameters: calls with the same parameters, in whatever states and on
    whatever tensors, have the same program name; two specializations
    whose flag strings have different hashes have different program names;
    and the program name is the name under which a call that returns has
    its program in the cache. *)
Theorem program_name_deterministic cl :
  (forall s1 s2 c1 c2,
     specialization_of s1 c1 = specialization_of s2 c2 ->
     program_name_of cl s1 c1 = program_name_of cl s2 c2)
  /\ (forall sp1 sp2,
        std_hash cl (flags_of cl sp1) <> std_hash cl (flags_of cl sp2) ->
        program_name cl sp1 <> program_name cl sp2)
  /\ (forall c s s' n,
        run cl c s = Ok tt s' -> program_name_of cl s c = Some n -> cached s' n).
Proof.
  split; [|split].
  - intros s1 s2 c1 c2 H. unfold program_name_of. by rewrite H.
  - intros sp1 sp2 Hne Heq. by apply Hne, program_name_hash.
  - intros c s s' n H Hn. by destruct (run_registers cl c s s' n H Hn).
Qed.

Lemma program_name_deterministic_witness :
  program_name_of Demo.runtime (Demo.tensors Demo.runtime)
    (OverlapScore 0 1 2 {| float_bits := 0 |} 5 3 false)
  = program_name_of Demo.runtime (Demo.tensors Demo.rejecting)
      (OverlapScore 0 1 1 {| float_bits := 1 |} 7 0 false)
  /\ program_name Demo.runtime (ForSortSynapse 32)
     <> program_name Demo.runtime (ForSortSynapse 64)
  /\ cached (Demo.after Demo.runtime [SortSynapse 1 2] (Demo.tensors Demo.runtime))
            (program_name Demo.runtime (ForSortSynapse 32)).
Proof.
  pose proof (program_name_deterministic Demo.runtime) as (Hdet & Hdiff & Hreg).
  split; [|split].
  - apply Hdet. vm_compute. reflexivity.
  - apply Hdiff. vm_compute. discriminate.
  - apply (Hreg (SortSynapse 1 2) (Demo.tensors Demo.runtime)); vm_compute; reflexivity.
Defined.

(** C10.  The program name of a globalInhibition call is ["overlapScore"]
    followed by the hash of its flag string, as is the program name of an
    overlapScore call; a globalInhibition call that returns has its program
    in the cache under that name and has touched no other entry; and since
    the two flag strings are never the same, the names of a
    globalInhibition and of an overlapScore specialization are the same
    exactly when the hashes of their flag strings are. *)
Theorem globalInhibition_program_name_prefix cl :
  (forall n, program_name cl (ForGlobalInhibition n)
             = "overlapScore" +:+ hash_string cl (globalInhibition_args n))
  /\ (forall n m u, program_name cl (ForOverlapScore n m u)
                    = "overlapScore" +:+ hash_string cl (overlapScore_args n m u))
  /\ (forall px py_ fraction s s',
        globalInhibition cl px py_ fraction s = Ok tt s' ->
        exists x, tensors_ s !! px = Some x
          /\ cached s' (program_name cl (ForGlobalInhibition (size x)))
          /\ only_name (program_name cl (ForGlobalInhibition (size x))) s s')
  /\ (forall n n' m u,
        globalInhibition_args n <> overlapScore_args n' m u
        /\ (program_name cl (ForGlobalInhibition n) = program_name cl (ForOverlapScore n' m u)
            <-> std_hash cl (globalInhibition_args n) = std_hash cl (overlapScore_args n' m u))).
Proof.
  split; [done|]. split; [done|]. split.
  - intros px py_ fraction s s' H.
    assert (exists x, tensors_ s !! px = Some x) as [x Hx].
    { unfold globalInhibition in H. inv_step H. eauto. }
    exists x. split; [done|].
    apply (run_registers cl (GlobalInhibition px py_ fraction)); [done|].
    unfold program_name_of. cbn. by rewrite Hx.
  - intros n n' m u. split; [apply globalInhibition_args_differ|]. split.
    + apply (program_name_hash cl (ForGlobalInhibition n) (ForOverlapScore n' m u)).
    + intros H. cbn. unfold globalInhibition_program_name, overlapScore_program_name,
        hash_string. by rewrite H.
Qed.

Lemma globalInhibition_program_name_prefix_witness :
  exists x, tensors_ (Demo.tensors Demo.runtime) !! 3%nat = Some x
    /\ cached (Demo.after Demo.runtime [GlobalInhibition 3 0 {| float_bits := 0 |}]
                 (Demo.tensors Demo.runtime))
              (program_name Demo.runtime (ForGlobalInhibition (size x)))
    /\ only_name (program_name Demo.runtime (ForGlobalInhibition (size x)))
         (Demo.tensors Demo.runtime)
         (Demo.after Demo.runtime [GlobalInhibition 3 0 {| float_bits := 0 |}]
            (Demo.tensors Demo.runtime)).
Proof.
  pose proof (globalInhibition_program_name_prefix Demo.runtime) as (_ & _ & H & _).
  apply (H 3%nat 0%nat {| float_bits := 0 |}). vm_compute. reflexivity.
Defined.

(** ** Dispatch errors *)

Section Dispatch.

Context (cl : Runtime).

Lemma launch_checked_bind {A} (m : M A) (f : A -> M unit) :
  keeps queue_ m -> (forall a, launch_checked (f a)) -> launch_checked (m ≫= f).
Proof.
  intros Hm Hf s s' H.
  apply bind_final_inv in H as [(w & H & _)|(a & s1 & H & Heq & H')].
  - left. apply (Hm s). by rewrite H.
  - assert (Hq : queue_ s1 = queue_ s) by (apply (Hm s); by rewrite H).
    rewrite Heq, <- Hq. by apply Hf.
Qed.

Lemma launch_checked_launch k args global local :
  launch_checked
    (err ← enqueue cl (NDRangeKernel k args global local);
     if bool_decide (err ≠ CL_SUCCESS) then throw (execution_failed err) else mret tt).
Proof.
  intros s s' H. right.
  rewrite (bind_Ok _ _ _ _ _ (enqueue_eq cl _ _)) in H |- *.
  exists k, args, global, local, (cl_enqueue cl (queue_ s) (NDRangeKernel k args global local)).
  destruct (decide (cl_enqueue cl (queue_ s) (NDRangeKernel k args global local)
                    = CL_SUCCESS)) as [He|He].
  - rewrite bool_decide_false in H |- * by (by intros ?).
    rewrite (bool_decide_true _ He). by injection H as <-.
  - rewrite bool_decide_true in H |- * by done.
    rewrite (bool_decide_false _ He). by injection H as <-.
Qed.

(** The steps before the launch do not touch the queue. *)
Ltac before_launch :=
  first
    [ solve [eauto with frame]
    | apply frame_compileFromFile_path; [exact _ | by intros | by intros]
    | apply frame_allocBuffer; [exact _ | by intros] ].

Ltac launch_steps :=
  repeat (cbv zeta; apply launch_checked_bind; [unfold keeps; before_launch | intros ?]);
  apply launch_checked_launch.

Lemma overlapScore_checked px pc pp cp th py_ u :
  launch_checked (overlapScore cl px pc pp cp th py_ u).
Proof. unfold overlapScore. launch_steps. Qed.

Lemma learnCorrilation_checked px pl pc pp i d :
  launch_checked (learnCorrilation cl px pl pc pp i d).
Proof. unfold learnCorrilation. launch_steps. Qed.

Lemma sortSynapse_checked pc pp : launch_checked (sortSynapse cl pc pp).
Proof. unfold sortSynapse. launch_steps. Qed.

End Dispatch.

(** C5 (as amended).  overlapScore, learnCorrilation and sortSynapse
    submit at most one command to the queue, their kernel launch; when the
    device reports a failure for it, the operation throws the error
    ["OpenCL kernel execution failed. Code "] followed by the device's error
    code, and it returns only when the device accepted the launch. *)
Theorem launch_status_checked cl c :
  checks_launch c = true -> launch_checked (run cl c).
Proof.
  destruct c; cbn; try discriminate; intros _.
  - apply overlapScore_checked.
  - apply learnCorrilation_checked.
  - apply sortSynapse_checked.
Qed.

Lemma launch_status_checked_witness :
  launch_checked
    (run Demo.rejecting (OverlapScore 0 1 2 {| float_bits := 0 |} 5 3 false)).
Proof. apply launch_status_checked. reflexivity. Defined.

(** C5 (as stated) fails.  On a device that rejects every kernel launch
    with the code -54, [cast] and [globalInhibition] return as if nothing
    had happened; and the error that [overlapScore] throws carries the code
    but does not name the operation. *)
Lemma launch_failure_ignored :
  (exists res s',
     cast Demo.rejecting 0 DType.Int32 (Demo.tensors Demo.rejecting) = Ok res s'
     /\ exists c, last (queue_ s') = Some (c, -54))
  /\ (exists s',
        globalInhibition Demo.rejecting 3 0 {| float_bits := 0 |}
          (Demo.tensors Demo.rejecting) = Ok tt s'
        /\ exists c, last (queue_ s') = Some (c, -54))
  /\ (exists s',
        overlapScore Demo.rejecting 0 1 2 {| float_bits := 0 |} 5 3 false
          (Demo.tensors Demo.rejecting)
        = Throw "OpenCL kernel execution failed. Code -54" s'
        /\ mentions "overlapScore" "OpenCL kernel execution failed. Code -54" = false).
Proof.
  split; [|split].
  - eexists _, _. split; [vm_compute; reflexivity|]. eexists. vm_compute. reflexivity.
  - eexists. split; [vm_compute; reflexivity|]. eexists. vm_compute. reflexivity.
  - eexists. split; [vm_compute; reflexivity|]. vm_compute. reflexivity.
Qed.

(** C3.  The overlapScore dispatcher asks for groups of 64 under the cap
    8152, which is not a multiple of 64: for 8150 elements the helper
    returns 8152, and the call launches its kernel on a grid of 8152 work
    items in groups of 64, 24 more than a whole number of groups. *)
Theorem overlapScore_grid_not_multiple :
  selectWorkSize 8152 64 8150 = Some 8152
  /\ 8152 mod 64 = 24
  /\ exists s' k args,
       overlapScore Demo.runtime 0 1 2 {| float_bits := 0 |} 5 3 false
         (Demo.tensors Demo.runtime) = Ok tt s'
       /\ last (queue_ s') = Some (NDRangeKernel k args 8152 64, CL_SUCCESS).
Proof.
  split; [vm_compute; reflexivity|]. split; [vm_compute; reflexivity|].
  eexists _, _, _. split; vm_compute; reflexivity.
Qed.

Lemma demo_tensors_heap_ok : heap_ok (Demo.tensors Demo.runtime).
Proof.
  assert (H0 : heap_ok (fresh_backend "kernels/")).
  { intros p t Hp. cbn in Hp. by rewrite lookup_empty in Hp. }
  unfold Demo.tensors, Demo.after. cbn [foldl].
  repeat match goal with
  | |- heap_ok (default ?s (final_state (run ?cl ?c ?s))) =>
      apply (run_heap_ok cl c s); [|vm_compute; reflexivity]
  end.
  exact H0.
Qed.


(** * Further properties *)

(** ** Reading the kernel sources *)

Section Files.

Context (cl : Runtime).

Lemma readAll_each_readable paths srcs s :
  read_all cl paths = Some srcs -> readAll_each cl paths s = Ok srcs s.
Proof.
  unfold read_all. revert srcs. induction paths as [|p ps IH]; intros srcs H; cbn in *.
  - by injection H as <-.
  - unfold readAll. destruct (read_file cl p) as [src|]; [|done]. cbn in H.
    destruct (mapM (read_file cl) ps) as [rest|]; [|done]. injection H as <-.
    erewrite bind_Ok by reflexivity. erewrite bind_Ok by (by apply IH). done.
Qed.

Lemma readAll_each_unreadable paths p s :
  first_unreadable cl paths = Some p ->
  readAll_each cl paths s
  = Throw ("Cannot open file " +:+ p +:+ ". " +:+ strerror_errno cl p) s.
Proof.
  unfold first_unreadable. induction paths as [|q qs IH]; intros H; [done|].
  cbn [readAll_each].
  unfold readAll. destruct (read_file cl q) as [src|] eqn:Hq.
  - rewrite filter_cons_False in H by (by rewrite Hq).
    erewrite bind_Ok by reflexivity. by erewrite bind_Throw by (by apply IH).
  - rewrite filter_cons_True in H by done. injection H as <-.
    by rewrite (bind_Throw _ _ _ _ s eq_refl).
Qed.

End Files.

(** X1.  When one of the files cannot be opened, [compileFromFile] throws
    the error of the first such path, in the order of the call, and leaves
    the backend as it was: nothing is compiled and the cache is untouched,
    with or without force-override. *)
Theorem compileFromFile_unreadable cl paths p name names force flags s :
  first_unreadable cl paths = Some p ->
  compileFromFile cl paths name names force flags s
  = Throw ("Cannot open file " +:+ p +:+ ". " +:+ strerror_errno cl p) s.
Proof.
  intros H. unfold compileFromFile.
  by erewrite bind_Throw by (by apply readAll_each_unreadable).
Qed.

Lemma compileFromFile_unreadable_witness :
  compileFromFile no_files ["a.cl"; "b.cl"] "p" ["k"] true EmptyString Demo.compiled
  = Throw "Cannot open file a.cl. No such file or directory" Demo.compiled.
Proof.
  apply (compileFromFile_unreadable no_files ["a.cl"; "b.cl"] "a.cl").
  vm_compute. reflexivity.
Defined.

(** X2.  When every file can be read, [compileFromFile] is [compileKernel]
    on the contents of the files, in the order of the paths. *)
Theorem compileFromFile_readable cl paths srcs name names force flags s :
  read_all cl paths = Some srcs ->
  compileFromFile cl paths name names force flags s
  = compileKernel cl srcs name names force flags s.
Proof.
  intros H. unfold compileFromFile.
  by erewrite bind_Ok by (by apply readAll_each_readable).
Qed.

Lemma compileFromFile_readable_witness :
  compileFromFile Demo.runtime ["a.cl"; "b.cl"] "q" ["k"] false EmptyString Demo.compiled
  = compileKernel Demo.runtime ["// a.cl"; "// b.cl"] "q" ["k"] false EmptyString
      Demo.compiled.
Proof.
  apply (compileFromFile_readable Demo.runtime ["a.cl"; "b.cl"]).
  vm_compute. reflexivity.
Defined.

(** ** The one-kernel overload of compileKernel *)

(** X3.  The overload of [compileKernel] that returns a kernel: for a
    program name that is cached it compiles nothing and returns the cached
    kernel of that entry point, and when the cached program has no such
    kernel its assertion fails; for a name that is not cached, when the
    program builds and the entry point resolves, it returns the kernel of
    the program it has just compiled. *)
Theorem compileKernel_one_outcomes cl src name kn flags s :
  (cached s name ->
     forall k, lookup_kernel (kernel_manager_ s) name kn = Some k ->
       compileKernel_one cl src name kn false flags s = Ok k s)
  /\ (cached s name -> lookup_kernel (kernel_manager_ s) name kn = None ->
        compileKernel_one cl src name kn false flags s = Fatal)
  /\ (¬ cached s name ->
        cl_build cl (next_program s [src] flags) = CL_SUCCESS ->
        cl_create_kernel cl (next_program s [src] flags) kn = CL_SUCCESS ->
        exists s',
          compileKernel_one cl src name kn false flags s
          = Ok {| k_program := next_program s [src] flags; k_name := kn |} s'
          /\ built_ s' = built_ s ++ [next_program s [src] flags]).
Proof.
  unfold compileKernel_one, compileKernel_src. split; [|split].
  - intros Hc k Hk. erewrite bind_Ok by (by apply compileKernel_hit).
    unfold exists_. erewrite bind_Ok by reflexivity. cbn beta.
    rewrite Hk. rewrite bool_decide_true by (by eexists). by apply kernel_lookup.
  - intros Hc Hk. erewrite bind_Ok by (by apply compileKernel_hit).
    unfold exists_. erewrite bind_Ok by reflexivity. cbn beta.
    rewrite Hk. rewrite bool_decide_false by (by intros [? [=]]). done.
  - intros Hm Hb Hr.
    assert (exists s', compileKernel cl [src] name [kn] false flags s = Ok tt s')
      as [s' Hs'].
    { rewrite compileKernel_miss by (by left). cbv zeta.
      rewrite bool_decide_false by (by intros ?).
      unfold mbind, M_bind, touch_app, modify. cbn.
      rewrite bool_decide_false by (by intros ?).
      unfold mbind, M_bind, set_kernel, modify. cbn. by eexists. }
    exists s'.
    pose proof (compileKernel_Ok_lookup cl _ _ _ _ _ _ _ kn (or_introl Hm) Hs'
                  ltac:(constructor)) as Hk.
    pose proof (compileKernel_Ok cl _ _ _ _ _ _ _ (or_introl Hm) Hs') as [Hbuilt _].
    split; [|done].
    erewrite bind_Ok by exact Hs'. unfold exists_. erewrite bind_Ok by reflexivity.
    cbn beta. rewrite Hk. rewrite bool_decide_true by (by eexists).
    by apply kernel_lookup.
Qed.

Lemma compileKernel_one_outcomes_witness :
  compileKernel_one Demo.runtime "kernel void c(){}" "p" "c" false EmptyString
    Demo.compiled = Fatal
  /\ (exists k, compileKernel_one Demo.runtime "kernel void c(){}" "p" "a" false
                  EmptyString Demo.compiled = Ok k Demo.compiled)
  /\ (exists s',
        compileKernel_one Demo.runtime "kernel void c(){}" "q" "c" false EmptyString
          Demo.compiled
        = Ok {| k_program := next_program Demo.compiled ["kernel void c(){}"] EmptyString;
                k_name := "c" |} s'
        /\ built_ s' = built_ Demo.compiled
                       ++ [next_program Demo.compiled ["kernel void c(){}"] EmptyString]).
Proof.
  split; [|split].
  - apply (compileKernel_one_outcomes Demo.runtime); vm_compute; [by eexists | done].
  - eexists.
    apply (proj1 (compileKernel_one_outcomes Demo.runtime _ "p" "a" _ Demo.compiled));
      vm_compute; [by eexists | reflexivity].
  - apply (compileKernel_one_outcomes Demo.runtime); vm_compute; [|done..].
    intros [? [=]].
Defined.

(** ** What every call respects *)

(** Descend through a method as [frame_steps] does, taking apart the case
    distinctions it makes on the way. *)
Ltac frame_cases :=
  repeat first
    [ exact _
    | solve [eauto with frame]
    | apply frame_bind; [exact _ | | intros ?]
    | apply frame_if
    | progress cbv zeta
    | match goal with
      | |- frame _ (match ?x with _ => _ end) => destruct x
      end ].

Section RunFrame.

Context (cl : Runtime) (R : relation OpenCLBackend) `{!PreOrder R}.

Hypothesis Hqueue : forall q s, R s (with_queue q s).
Hypothesis Halloc : forall s, R s (with_allocated (S (allocated_ s)) s).
Hypothesis Hnew : forall t s,
  R s (with_tensors (<[next_tensor_ s := t]> (tensors_ s)) (S (next_tensor_ s)) s).
Hypothesis Hdelete : forall p s,
  R s (with_tensors (delete p (tensors_ s)) (next_tensor_ s) s).
Hypothesis Hcompile : forall srcs name names force flags,
  frame R (compileKernel cl srcs name names force flags).

Lemma with_enqueue c : frame R (enqueue cl c).
Proof. by apply frame_enqueue. Qed.

Lemma with_allocBuffer n : frame R (allocBuffer cl n).
Proof. by apply frame_allocBuffer. Qed.

Lemma with_new_tensor t : frame R (new_tensor t).
Proof. apply frame_new_tensor; [exact _ | auto]. Qed.

Lemma with_compileFromFile_path path name names force flags :
  frame R (compileFromFile_path cl path name names force flags).
Proof.
  unfold compileFromFile_path, compileFromFile.
  apply frame_bind; [exact _ | by apply frame_readAll_each | auto].
Qed.

Hint Resolve with_enqueue with_allocBuffer with_new_tensor
  with_compileFromFile_path Hcompile : frame.

Lemma with_compileKernel_one src name kn force flags :
  frame R (compileKernel_one cl src name kn force flags).
Proof. unfold compileKernel_one, compileKernel_src, exists_. frame_cases. Qed.

Lemma with_createTensor sh dt data : frame R (createTensor cl sh dt data).
Proof. unfold createTensor. frame_cases. Qed.

Lemma with_copy px : frame R (copy cl px).
Proof. unfold copy. frame_cases. Qed.

(** Every call respects a relation that each update of the state
    respects. *)
Lemma with_run c : frame R (run cl c).
Proof.
  pose proof with_createTensor. pose proof with_copy.
  destruct c; cbn [run];
    unfold cast, overlapScore, globalInhibition, learnCorrilation, sortSynapse,
      releaseTensor, copyToHost, sync;
    frame_cases.
  apply frame_modify. auto.
Qed.

End RunFrame.

(** ** The cache only grows *)

#[global] Instance cache_grows_preorder : PreOrder cache_grows.
Proof.
  split.
  - by intros s.
  - intros s1 s2 s3 [H1 H1'] [H2 H2']. split; auto.
Qed.

Lemma cache_grows_same s s' :
  kernel_manager_ s' = kernel_manager_ s -> cache_grows s s'.
Proof. intros H. unfold cache_grows, cached. by rewrite H. Qed.

Lemma cache_grows_insert s name app app' :
  apps_ (kernel_manager_ s) !! name = app ->
  (forall a kn, app = Some a -> is_Some (kernels a !! kn) -> is_Some (kernels app' !! kn)) ->
  cache_grows s (with_apps (<[name := app']> (apps_ (kernel_manager_ s))) s).
Proof.
  intros Happ Hk. split.
  - intros n Hn. unfold cached in *. cbn.
    destruct (decide (name = n)) as [->|Hne];
      [rewrite lookup_insert_eq; by eexists | by rewrite lookup_insert_ne].
  - intros n kn. unfold lookup_kernel. cbn.
    destruct (decide (name = n)) as [->|Hne]; [|by rewrite lookup_insert_ne].
    rewrite lookup_insert_eq. cbn. rewrite Happ.
    destruct app as [a|]; cbn; [by apply Hk | by intros [? [=]]].
Qed.

Section CacheGrows.

Context (cl : Runtime).

Lemma set_kernel_grows name kn k : frame cache_grows (set_kernel name kn k).
Proof.
  unfold set_kernel. apply frame_modify. intros s. cbv zeta.
  destruct (apps_ (kernel_manager_ s) !! name) as [app|] eqn:Happ; [|reflexivity].
  eapply cache_grows_insert; [exact Happ|]. intros a kn' [= <-] Hk. cbn.
  destruct (decide (kn = kn')) as [->|Hne];
    [rewrite lookup_insert_eq; by eexists | by rewrite lookup_insert_ne].
Qed.

Lemma touch_app_grows name : frame cache_grows (touch_app name).
Proof.
  unfold touch_app. apply frame_modify. intros s. cbv zeta.
  destruct (apps_ (kernel_manager_ s) !! name) as [app|] eqn:Happ; [reflexivity|].
  eapply cache_grows_insert; [exact Happ|]. by intros a kn [=].
Qed.

Lemma resolve_kernels_grows program name names :
  frame cache_grows (resolve_kernels cl program name names).
Proof.
  induction names as [|n ns IH]; cbn; [apply frame_ret; exact _|].
  apply frame_if; [apply frame_throw; exact _|].
  apply frame_bind; [exact _ | apply set_kernel_grows | done].
Qed.

Lemma compileKernel_grows srcs name names force flags :
  frame cache_grows (compileKernel cl srcs name names force flags).
Proof.
  intros s s'.
  destruct (decide (cached s name)) as [Hc|Hc], force eqn:Hf;
    try (rewrite compileKernel_hit by done; intros [= <-]; reflexivity);
    (rewrite compileKernel_miss by (try (by left); by right); cbv zeta;
     case_bool_decide; [intros [= <-]; by apply cache_grows_same|];
     intros H'; etransitivity; [by apply cache_grows_same|];
     exact (frame_bind cache_grows _ _ (touch_app_grows name)
              (fun _ => resolve_kernels_grows _ name names) _ _ H')).
Qed.

Lemma run_cache_grows c s s' :
  final_state (run cl c s) = Some s' -> cache_grows s s'.
Proof.
  apply (with_run cl cache_grows); try (intros; by apply cache_grows_same).
  apply compileKernel_grows.
Qed.

End CacheGrows.

(** X4.  No call removes anything from the kernel cache: a program name
    that is cached stays cached, and an entry point for which the cache
    holds a kernel still has one after the call, whether the call returns
    or throws, force-override included. *)
Theorem cache_never_shrinks cl c s s' n kn :
  final_state (run cl c s) = Some s' ->
  (cached s n -> cached s' n)
  /\ (is_Some (lookup_kernel (kernel_manager_ s) n kn) ->
      is_Some (lookup_kernel (kernel_manager_ s') n kn)).
Proof.
  intros H. destruct (run_cache_grows cl c s s' H) as [H1 H2]. split; auto.
Qed.

Lemma cache_never_shrinks_witness :
  is_Some (lookup_kernel
             (kernel_manager_
                (Demo.after Demo.runtime
                   [CompileKernel ["kernel void a(){}"] "p" ["a"] true EmptyString]
                   Demo.compiled)) "p" "b").
Proof.
  apply (cache_never_shrinks Demo.runtime
           (CompileKernel ["kernel void a(){}"] "p" ["a"] true EmptyString)
           Demo.compiled _ "p" "b");
    [vm_compute; reflexivity | vm_compute; by eexists].
Defined.

(** ** The kernels of the cache *)

Section CacheSound.

Context (cl : Runtime).

Lemma cache_sound_same s s' :
  kernel_manager_ s' = kernel_manager_ s -> built_ s ⊆ built_ s' ->
  cache_sound cl s -> cache_sound cl s'.
Proof.
  intros Hk Hb H n kn k Hl. rewrite Hk in Hl.
  destruct (H n kn k Hl) as (? & ? & ? & ?). repeat split; auto.
Qed.

Lemma set_kernel_sound program name kn s :
  program ∈ built_ s -> cl_build cl program = CL_SUCCESS ->
  cl_create_kernel cl program kn = CL_SUCCESS ->
  cache_sound cl s ->
  forall s', set_kernel name kn {| k_program := program; k_name := kn |} s = Ok tt s' ->
    cache_sound cl s' /\ built_ s' = built_ s.
Proof.
  intros Hin Hb Hr H s'. unfold set_kernel, modify. cbv zeta.
  destruct (apps_ (kernel_manager_ s) !! name) as [app|] eqn:Happ;
    intros [= <-]; [|done].
  split; [|done]. intros n kn' k. unfold lookup_kernel. cbn.
  destruct (decide (name = n)) as [->|Hne].
  - rewrite lookup_insert_eq. cbn.
    destruct (decide (kn = kn')) as [->|Hne'].
    + rewrite lookup_insert_eq. by intros [= <-].
    + rewrite lookup_insert_ne by done. intros Hl.
      apply (H n kn' k). unfold lookup_kernel. by rewrite Happ.
  - rewrite lookup_insert_ne by done. apply (H n kn' k).
Qed.

Lemma resolve_kernels_sound program name names s s' :
  program ∈ built_ s -> cl_build cl program = CL_SUCCESS -> cache_sound cl s ->
  final_state (resolve_kernels cl program name names s) = Some s' ->
  cache_sound cl s'.
Proof.
  revert s. induction names as [|n ns IH]; intros s Hin Hb H; cbn.
  - by intros [= <-].
  - case_bool_decide as Hr; [by intros [= <-]|].
    assert (cl_create_kernel cl program n = CL_SUCCESS) as Hn.
    { destruct (decide (cl_create_kernel cl program n = CL_SUCCESS)); [done|].
      by destruct Hr. }
    unfold mbind, M_bind.
    destruct (set_kernel name n {| k_program := program; k_name := n |} s)
      as [[] s1|w s1|] eqn:Hs; [|done..].
    destruct (set_kernel_sound program name n s Hin Hb Hn H s1 Hs) as [H1 Hb1].
    apply IH; [by rewrite Hb1 | done | done].
Qed.

Lemma compileKernel_sound srcs name names force flags :
  frame (preserved (cache_sound cl)) (compileKernel cl srcs name names force flags).
Proof.
  intros s s' Hf H. revert Hf.
  assert (Hs1 : cache_sound cl (with_built (built_ s ++ [next_program s srcs flags]) s)).
  { apply (cache_sound_same s); [done | | done]. cbn. set_solver. }
  destruct (decide (cached s name)) as [Hc|Hc], force eqn:Hforce;
    try (rewrite compileKernel_hit by done; by intros [= <-]);
    (rewrite compileKernel_miss by (try (by left); by right); cbv zeta;
     case_bool_decide as Hb; [by intros [= <-]|];
     unfold mbind, M_bind, touch_app, modify; cbn;
     apply resolve_kernels_sound;
     [ case_match; cbn; set_solver
     | destruct (decide (cl_build cl (next_program s srcs flags) = CL_SUCCESS));
       [done | by destruct Hb]
     | ]).
  all: case_match eqn:Happ; [done|].
  all: intros n kn k; unfold lookup_kernel; cbn.
  all: destruct (decide (name = n)) as [->|Hne];
    [rewrite lookup_insert_eq; cbn; by rewrite lookup_empty
    | rewrite lookup_insert_ne by done; apply (Hs1 n kn k)].
Qed.

Lemma run_cache_sound c s s' :
  cache_sound cl s -> final_state (run cl c s) = Some s' -> cache_sound cl s'.
Proof.
  assert (Hrun : frame (preserved (cache_sound cl)) (run cl c)).
  { apply with_run;
      first [exact _ | apply compileKernel_sound | (intros; intros H'; exact H')]. }
  intros H Hf. exact (Hrun s s' Hf H).
Qed.

Lemma reachable_cache_sound s : reachable cl s -> cache_sound cl s.
Proof.
  induction 1 as [root k s H|s s' _ IH [c Hc]]; [|by eapply run_cache_sound].
  apply Ok_final in H. unfold construct in H.
  assert (Hone : frame (preserved (cache_sound cl))
            (compileKernel_one cl
               "kernel void __etaler_dummy__(global int* p){p[get_global_id(0)] = 0;}"
               "__etaler_dummy__" "__etaler_dummy__" false EmptyString)).
  { apply with_compileKernel_one;
      first [exact _ | apply compileKernel_sound | (intros; intros H'; exact H')]. }
  apply (Hone _ _ H). intros n kn k0. unfold lookup_kernel. cbn. by rewrite lookup_empty.
Qed.

End CacheSound.

(** X5.  In every state the backend can reach, a kernel of the cache is
    found under its own entry-point name and belongs to a program that was
    handed to the device compiler, for which the build succeeded and in
    which that entry point resolved. *)
Theorem cached_kernels_are_compiled cl s n kn k :
  reachable cl s -> lookup_kernel (kernel_manager_ s) n kn = Some k ->
  k_name k = kn /\ k_program k ∈ built_ s
  /\ cl_build cl (k_program k) = CL_SUCCESS
  /\ cl_create_kernel cl (k_program k) kn = CL_SUCCESS.
Proof. intros Hr. by apply reachable_cache_sound. Qed.

Lemma cached_kernels_are_compiled_witness :
  k_name {| k_program := dummy_program; k_name := dummy_kernel |} = dummy_kernel
  /\ dummy_program ∈ built_ constructed
  /\ cl_build Demo.runtime dummy_program = CL_SUCCESS
  /\ cl_create_kernel Demo.runtime dummy_program dummy_kernel = CL_SUCCESS.
Proof.
  apply (cached_kernels_are_compiled Demo.runtime constructed dummy_kernel dummy_kernel
           {| k_program := dummy_program; k_name := dummy_kernel |}).
  - apply (reachable_construct Demo.runtime "kernels/"
             {| k_program := dummy_program; k_name := dummy_kernel |}).
    vm_compute. reflexivity.
  - vm_compute. reflexivity.
Defined.

(** ** Construction and diagnostics *)

Section Construction.

Context (cl : Runtime).

Lemma compileKernel_beside srcs name names force flags s s' :
  final_state (compileKernel cl srcs name names force flags s) = Some s' ->
  beside_cache s' = beside_cache s.
Proof.
  pose proof (frame_compileKernel cl (fun s s' => beside_cache s' = beside_cache s)
                srcs name names force flags) as Hf.
  apply Hf; by intros.
Qed.

(** What the one-kernel overload leaves when it compiled and returned. *)
Lemma compileKernel_one_Ok_fresh src name kn flags s k s' :
  ¬ cached s name ->
  compileKernel_one cl src name kn false flags s = Ok k s' ->
  k = {| k_program := next_program s [src] flags; k_name := kn |}
  /\ lookup_kernel (kernel_manager_ s') name kn = Some k
  /\ built_ s' = built_ s ++ [next_program s [src] flags]
  /\ beside_cache s' = beside_cache s.
Proof.
  intros Hm H. unfold compileKernel_one, compileKernel_src in H.
  apply bind_Ok_inv in H as ([] & s1 & Hc & H).
  apply bind_Ok_inv in H as (ok & s2 & [-> ->]%gets_Ok_inv & H).
  case_bool_decide as Hex; [|done]. apply kernel_Ok_inv in H as [-> Hk].
  pose proof (compileKernel_Ok_lookup cl _ _ _ _ _ _ _ kn (or_introl Hm) Hc
                ltac:(constructor)) as Hk'.
  pose proof (compileKernel_Ok cl _ _ _ _ _ _ _ (or_introl Hm) Hc) as [Hb _].
  rewrite Hk' in Hk. injection Hk as <-. repeat split; [done..|].
  eapply compileKernel_beside, Ok_final, Hc.
Qed.

Lemma construct_Ok root k s :
  construct cl root = Ok k s ->
  k = {| k_program := dummy_program; k_name := dummy_kernel |}
  /\ lookup_kernel (kernel_manager_ s) dummy_kernel dummy_kernel = Some k
  /\ built_ s = [dummy_program]
  /\ beside_cache s = beside_cache (fresh_backend root).
Proof.
  intros H. apply compileKernel_one_Ok_fresh in H; [done|].
  intros [? H']. cbn in H'. by rewrite lookup_empty in H'.
Qed.

(** The dummy kernel is in the cache of every reachable state. *)
Lemma reachable_dummy s :
  reachable cl s ->
  is_Some (lookup_kernel (kernel_manager_ s) dummy_kernel dummy_kernel).
Proof.
  induction 1 as [root k s H|s s' _ IH [c Hc]].
  - apply construct_Ok in H as (_ & -> & _). by eexists.
  - by apply (run_cache_grows cl c s s' Hc).
Qed.

End Construction.

(** X6.  When the constructor returns, it has chosen the first platform and
    the first device of that platform, and this device has a compiler; the
    backend it leaves has compiled exactly one program, the dummy kernel,
    which is in the cache under its own name, and has no tensor, no buffer
    and nothing in its queue. *)
Theorem OpenCLBackend_new_Ok host cl root platform device s :
  OpenCLBackend_new host cl root = Ok (platform, device) s ->
  head (platform_get host).2 = Some platform
  /\ head (platform_devices platform) = Some device
  /\ compiler_available device = true
  /\ reachable cl s
  /\ built_ s = [dummy_program]
  /\ lookup_kernel (kernel_manager_ s) dummy_kernel dummy_kernel
     = Some {| k_program := dummy_program; k_name := dummy_kernel |}
  /\ tensors_ s = ∅ /\ allocated_ s = 0%nat /\ queue_ s = []
  /\ kernel_root_ s = root.
Proof.
  unfold OpenCLBackend_new. destruct (platform_get host) as [err platforms].
  case_bool_decide as Herr; [done|].
  destruct platforms as [|p ps]; [done|].
  destruct (platform_devices p) as [|d ds] eqn:Hd; [done|].
  destruct (compiler_available d) eqn:Hcomp; [|done]. cbn [negb]. cbv zeta.
  case_bool_decide as Hctx; [done|].
  intros H. apply bind_Ok_inv in H as (k & s1 & Hc & [= <- <- <-]).
  pose proof (reachable_construct cl root k s1 Hc) as Hr.
  apply construct_Ok in Hc as (-> & Hk & Hb & Hbeside).
  unfold beside_cache in Hbeside. injection Hbeside as Ht _ Ha Hq Hroot.
  cbn. rewrite Hd. repeat split; done.
Qed.

Lemma OpenCLBackend_new_Ok_witness :
  built_ constructed = [dummy_program] /\ tensors_ constructed = ∅.
Proof.
  destruct (OpenCLBackend_new_Ok demo_host Demo.runtime "kernels/"
              {| platform_name := "Portable Computing Language";
                 platform_devices :=
                   [{| device_name := "cpu"; compiler_available := true;
                       global_mem_size := 8589934592; max_mem_alloc_size := 2147483648;
                       local_mem_size := 65536 |};
                    {| device_name := "fpga"; compiler_available := false;
                       global_mem_size := 0; max_mem_alloc_size := 0;
                       local_mem_size := 0 |}] |}
              {| device_name := "cpu"; compiler_available := true;
                 global_mem_size := 8589934592; max_mem_alloc_size := 2147483648;
                 local_mem_size := 65536 |}
              constructed) as (_ & _ & _ & _ & Hb & _ & Ht & _).
  - vm_compute. reflexivity.
  - by split.
Defined.

(** X7.  When the one-argument [kernel(name)] stands for the kernel [name]
    of the program [name], then in every state the backend can reach
    [deviceInfo] finds the dummy kernel it asks the kernel manager for: it
    returns its report and leaves the backend as it was. *)
Theorem deviceInfo_returns host cl kernel_by_name platform device s :
  (forall name, kernel_by_name name = kernel name name) ->
  reachable cl s ->
  exists report, deviceInfo host kernel_by_name platform device s = Ok report s.
Proof.
  intros Hname Hr. destruct (reachable_dummy cl s Hr) as [k Hk].
  unfold deviceInfo. cbv zeta. rewrite Hname.
  erewrite bind_Ok by (by apply kernel_lookup). by eexists.
Qed.

Lemma constructed_reachable : reachable Demo.runtime constructed.
Proof.
  apply (reachable_construct Demo.runtime "kernels/"
           {| k_program := dummy_program; k_name := dummy_kernel |}).
  vm_compute. reflexivity.
Qed.

Lemma deviceInfo_returns_witness :
  exists report,
    deviceInfo demo_host (fun name => kernel name name)
      {| platform_name := "Portable Computing Language"; platform_devices := [] |}
      {| device_name := "cpu"; compiler_available := true;
         global_mem_size := 8589934592; max_mem_alloc_size := 2147483648;
         local_mem_size := 65536 |}
      constructed = Ok report constructed.
Proof.
  apply (deviceInfo_returns demo_host Demo.runtime (fun name => kernel name name)).
  - reflexivity.
  - apply constructed_reachable.
Defined.

(** ** Failed checks *)

(** Pass the assertions of a method one by one: the first that fails
    throws in the state the method started in. *)
Ltac assert_steps :=
  repeat match goal with
  | |- context [mbind _ (et_assert ?b ?e)] =>
      destruct b eqn:?;
      [ rewrite (bind_Ok (et_assert true e) _ _ tt _ eq_refl)
      | eexists; reflexivity ]
  end.

(** X8.  A call whose checks on its operands fail throws and changes
    nothing: the checks come before any compilation, allocation or
    submission. *)
Theorem failed_checks_change_nothing cl c s :
  operands_pass s c = Some false -> exists what, run cl c s = Throw what s.
Proof.
  destruct c; cbn [operands_pass run];
    unfold createTensor, releaseTensor, copyToHost, copy, cast, overlapScore,
      globalInhibition, learnCorrilation, sortSynapse;
    intros H; try discriminate H.
  - injection H as H. eexists. apply bind_Throw. rewrite H. reflexivity.
  - destruct (tensors_ s !! pimpl) as [t|] eqn:Ht; [|done]. injection H as H.
    erewrite bind_Ok by (by apply deref_Ok). rewrite H. by eexists.
  - destruct (tensors_ s !! pimpl) as [t|] eqn:Ht; [|done]. injection H as H.
    erewrite bind_Ok by (by apply deref_Ok). destruct t; [done | by eexists].
  - destruct (tensors_ s !! px) as [t|] eqn:Ht; [|done]. injection H as H.
    eexists. apply bind_Throw.
    erewrite bind_Ok by (by apply deref_Ok). rewrite H. reflexivity.
  - destruct (tensors_ s !! px) as [t|] eqn:Ht; [|done]. injection H as H.
    eexists. apply bind_Throw.
    erewrite bind_Ok by (by apply deref_Ok). rewrite H. reflexivity.
  - destruct (tensors_ s !! px) as [x|] eqn:Hx; [|done].
    destruct (tensors_ s !! pconnections) as [c|] eqn:Hc; [|done].
    destruct (tensors_ s !! ppermeances) as [p|] eqn:Hp; [|done].
    destruct (tensors_ s !! py) as [y|] eqn:Hy; [|done]. injection H as H.
    do 4 erewrite bind_Ok by (by apply deref_Ok).
    assert_steps. done.
  - destruct (tensors_ s !! px) as [x|] eqn:Hx; [|done].
    destruct (tensors_ s !! py) as [y|] eqn:Hy; [|done]. injection H as H.
    do 2 erewrite bind_Ok by (by apply deref_Ok).
    assert_steps. done.
  - destruct (tensors_ s !! px) as [x|] eqn:Hx; [|done].
    destruct (tensors_ s !! plearn) as [l|] eqn:Hl; [|done].
    destruct (tensors_ s !! pconnections) as [c|] eqn:Hc; [|done].
    destruct (tensors_ s !! ppermeances) as [p|] eqn:Hp; [|done]. injection H as H.
    do 4 erewrite bind_Ok by (by apply deref_Ok).
    assert_steps. done.
  - destruct (tensors_ s !! pconnections) as [c|] eqn:Hc; [|done].
    destruct (tensors_ s !! ppermeances) as [p|] eqn:Hp; [|done]. injection H as H.
    do 2 erewrite bind_Ok by (by apply deref_Ok).
    assert_steps. done.
Qed.

Lemma failed_checks_change_nothing_witness :
  exists what,
    run Demo.runtime (OverlapScore 3 1 2 {| float_bits := 0 |} 5 3 false)
      (Demo.tensors Demo.runtime)
    = Throw what (Demo.tensors Demo.runtime).
Proof. apply failed_checks_change_nothing. vm_compute. reflexivity. Defined.

(** ** Operands without a last dimension *)

(** Run a method through the checks on its operands, when they pass. *)
Ltac passed_checks Hpass :=
  repeat match type of Hpass with
  | context [tensors_ ?s !! ?p] =>
      let E := fresh "E" in
      destruct (tensors_ s !! p) eqn:E; cbn in Hpass; [|discriminate Hpass];
      try rewrite E in Hpass; cbn in Hpass
  end;
  injection Hpass as Hpass;
  repeat match goal with
  | H : _ && _ = true |- _ => apply andb_prop in H as [H ?]
  end;
  repeat match goal with
  | E : tensors_ ?s !! ?p = Some ?t |- context [deref ?p] =>
      rewrite (bind_Ok (deref p) _ s t s (deref_Ok p s t E))
  end;
  repeat match goal with
  | H : ?b = true |- context [et_assert ?b] =>
      rewrite H; erewrite (bind_Ok (et_assert true _)) by reflexivity
  end.

(** X9.  overlapScore, learnCorrilation and sortSynapse take the last
    dimension of [connections] without looking whether there is one: on
    operands that pass every check, with a [connections] tensor of empty
    shape, the call has no defined behaviour.  sortSynapse divides by that
    dimension: when it is zero and the program is to be had, the call has no
    defined behaviour either. *)
Theorem no_last_dimension cl c s pc t :
  connections_of c = Some pc -> tensors_ s !! pc = Some t ->
  operands_pass s c = Some true ->
  (shape t = [] -> run cl c s = Fatal)
  /\ (forall pp d u s1, c = SortSynapse pc pp -> last (shape t) = Some d ->
        size_t_of d = 0 ->
        compileFromFile_path cl (kernel_root_ s +:+ "sort.cl")
          (sortSynapse_program_name cl (sortSynapse_args d)) ["sortSynapse"] false
          (sortSynapse_args d) s = Ok u s1 ->
        run cl c s = Fatal).
Proof.
  intros Hc Ht Hpass. split.
  - intros Hsh.
    destruct c; cbn in Hc; try discriminate Hc; injection Hc as ->;
      cbn [run operands_pass] in *;
      unfold overlapScore, learnCorrilation, sortSynapse;
      rewrite Ht in Hpass; passed_checks Hpass;
      by rewrite Hsh.
  - intros pp d u s1 -> Hl Hd Hcomp. cbn [run operands_pass] in *.
    unfold sortSynapse. rewrite Ht in Hpass. passed_checks Hpass.
    rewrite Hl. erewrite bind_Ok by reflexivity. cbv zeta.
    erewrite bind_Ok by reflexivity.
    erewrite bind_Ok by exact Hcomp.
    unfold mbind at 1, M_bind at 1, kernel at 1.
    unfold mbind at 1, M_bind at 1, gets at 1, defined at 1.
    destruct (lookup_kernel _ _ _); [|done].
    unfold num_cells_of. by rewrite Hd.
Qed.

Lemma no_last_dimension_witness :
  run Demo.runtime (SortSynapse 4 5)
    (Demo.after Demo.runtime
       [CreateTensor [16; 0] DType.Int32 None; CreateTensor [16; 0] DType.Float None]
       (Demo.tensors Demo.runtime))
  = Fatal.
Proof.
  apply (proj2 (no_last_dimension Demo.runtime (SortSynapse 4 5)
                  (Demo.after Demo.runtime
                     [CreateTensor [16; 0] DType.Int32 None;
                      CreateTensor [16; 0] DType.Float None]
                     (Demo.tensors Demo.runtime))
                  4%nat
                  (OpenCLTensor [16; 0] DType.Int32 {| buf_id := 4; buf_bytes := 0 |})
                  eq_refl ltac:(vm_compute; reflexivity) ltac:(vm_compute; reflexivity))
           5%nat 0 tt
           (default (fresh_backend EmptyString)
              (final_state
                 (compileFromFile_path Demo.runtime ("kernels/" +:+ "sort.cl")
                    (sortSynapse_program_name Demo.runtime (sortSynapse_args 0))
                    ["sortSynapse"] false (sortSynapse_args 0)
                    (Demo.after Demo.runtime
                       [CreateTensor [16; 0] DType.Int32 None;
                        CreateTensor [16; 0] DType.Float None]
                       (Demo.tensors Demo.runtime))))));
    vm_compute; reflexivity.
Defined.

(** ** Releasing a tensor *)

(** X10.  When [releaseTensor] returns, the tensor is gone and every other
    tensor is as it was; the handle must not be used again: releasing it a
    second time, reading it back or copying it has no defined behaviour. *)
Theorem releaseTensor_Ok cl p s s' :
  releaseTensor p s = Ok tt s' ->
  tensors_ s' !! p = None
  /\ (forall q, q <> p -> tensors_ s' !! q = tensors_ s !! q)
  /\ next_tensor_ s' = next_tensor_ s
  /\ releaseTensor p s' = Fatal
  /\ copyToHost cl p s' = Fatal
  /\ copy cl p s' = Fatal.
Proof.
  unfold releaseTensor. intros H. inv_steps H.
  assert (Hnone : tensors_ (with_tensors (delete p (tensors_ s)) (next_tensor_ s) s) !! p
                  = None) by apply lookup_delete_eq.
  split; [done|]. split; [intros q Hq; cbn; by rewrite lookup_delete_ne|].
  split; [done|].
  unfold releaseTensor, copyToHost, copy, deref, mbind, M_bind, gets.
  by rewrite Hnone.
Qed.

Lemma releaseTensor_Ok_witness :
  copyToHost Demo.runtime 0
    (Demo.after Demo.runtime [ReleaseTensor 0] (Demo.tensors Demo.runtime)) = Fatal.
Proof.
  apply (releaseTensor_Ok Demo.runtime 0%nat (Demo.tensors Demo.runtime)).
  vm_compute. reflexivity.
Defined.

(** ** Steps whose value is known *)

Lemma frame_bind_defined {A B} R `{!PreOrder R} (o : option A) (f : A -> M B) :
  (forall a, o = Some a -> frame R (f a)) -> frame R (defined o ≫= f).
Proof.
  intros H s s'. destruct o as [a|]; [|done].
  rewrite (bind_Ok (defined (Some a)) f s a s eq_refl). by apply H.
Qed.

Lemma frame_at_deref {B} R p (f : TensorImpl -> M B) s :
  (forall t, tensors_ s !! p = Some t -> frame_at R s (f t)) ->
  frame_at R s (deref p ≫= f).
Proof.
  intros H s'. destruct (tensors_ s !! p) as [t|] eqn:Ht.
  - rewrite (bind_Ok _ f s t s (deref_Ok p s t Ht)). by apply H.
  - unfold deref, mbind, M_bind, gets. by rewrite Ht.
Qed.

Lemma frame_at_frame {A} R (m : M A) s : frame R m -> frame_at R s m.
Proof. intros H s'. apply H. Qed.

(** ** The queue *)

#[global] Instance submits_preorder P : PreOrder (submits P).
Proof.
  split.
  - intros s. exists []. by rewrite app_nil_r.
  - intros s1 s2 s3 (n1 & H1 & F1) (n2 & H2 & F2). exists (n1 ++ n2).
    split; [by rewrite H2, H1, app_assoc | by apply Forall_app].
Qed.

Lemma submits_same P s s' : queue_ s' = queue_ s -> submits P s s'.
Proof. intros H. exists []. by rewrite app_nil_r. Qed.

Lemma submits_enqueue cl P c :
  (forall status, P (c, status)) -> frame (submits P) (enqueue cl c).
Proof.
  intros H s s'. rewrite enqueue_eq. intros [= <-].
  eexists. split; [reflexivity|]. by apply Forall_singleton.
Qed.

Lemma volume_size_t sh : is_size_t (volume sh).
Proof.
  unfold volume. assert (is_size_t 1) as H1 by (unfold is_size_t, SIZE_T_MOD; lia).
  revert H1. generalize 1. induction sh as [|d sh IH]; intros acc Hacc; cbn; [done|].
  apply IH. unfold is_size_t, size_t_of, SIZE_T_MOD. apply Z.mod_pos_bound. lia.
Qed.

Lemma size_t_of_size_t z : is_size_t (size_t_of z).
Proof. unfold is_size_t, size_t_of, SIZE_T_MOD. apply Z.mod_pos_bound. lia. Qed.

Section Queue.

Context (cl : Runtime) (P : Command * Z -> Prop).

Lemma submits_allocBuffer n : frame (submits P) (allocBuffer cl n).
Proof. apply frame_allocBuffer; [exact _|]. intros. by apply submits_same. Qed.

Lemma submits_new_tensor t : frame (submits P) (new_tensor t).
Proof. apply frame_new_tensor; [exact _|]. intros. by apply submits_same. Qed.

Lemma submits_compileFromFile_path path name names force flags :
  frame (submits P) (compileFromFile_path cl path name names force flags).
Proof.
  apply frame_compileFromFile_path; [exact _|..]; intros; by apply submits_same.
Qed.

Lemma submits_compileKernel srcs name names force flags :
  frame (submits P) (compileKernel cl srcs name names force flags).
Proof.
  apply frame_compileKernel; [exact _|..]; intros; by apply submits_same.
Qed.

End Queue.

#[global] Hint Resolve submits_allocBuffer submits_new_tensor
  submits_compileFromFile_path submits_compileKernel : frame.

(** Descend through a method, keeping what is known of the values that
    [defined] yields, down to its submissions. *)
Ltac submit_steps :=
  repeat first
    [ exact _
    | solve [eauto with frame]
    | apply submits_enqueue; intros ?; unfold regular_launch, in_bounds; cbn
    | apply frame_modify; intros ?; by apply submits_same
    | apply frame_bind_defined; [exact _ | intros ? ?]
    | apply frame_bind; [exact _ | | intros ?]
    | apply frame_if
    | progress cbv zeta
    | match goal with
      | |- frame _ (match ?x with _ => _ end) => destruct x
      end ].

(** ** Launch geometry *)

Section Launches.

Context (cl : Runtime).

Lemma regular_selectWorkSize size g :
  is_size_t size -> selectWorkSize 4096 128 size = Some g ->
  0 < 128 /\ g mod 128 = 0 /\ 0 <= g <= 4096.
Proof.
  intros Hs Hg. destruct (selectWorkSize_4096_128 size Hs) as (g' & Hg' & ? & ?).
  rewrite Hg in Hg'. injection Hg' as ->. split; [lia | done].
Qed.

Lemma run_regular_launch c s s' :
  (forall px pc pp cp th py_ u, c <> OverlapScore px pc pp cp th py_ u) ->
  final_state (run cl c s) = Some s' -> submits regular_launch s s'.
Proof.
  intros Hc. revert s s'. change (frame (submits regular_launch) (run cl c)).
  destruct c; cbn [run];
    unfold createTensor, releaseTensor, copyToHost, copy, sync, cast, globalInhibition,
      learnCorrilation, sortSynapse;
    try (by destruct (Hc px pconnections ppermeances connected_permeance
                        active_threshold py has_unconnected_synapse));
    submit_steps;
    try done;
    try (repeat split; (reflexivity || lia));
    try (eapply regular_selectWorkSize; [|eassumption];
         first [apply volume_size_t | apply size_t_of_size_t]).
Qed.

End Launches.

(** X11.  Every kernel that cast, globalInhibition, learnCorrilation and
    sortSynapse launch, for operands of any size, runs on a whole number of
    groups and on at most 4096 work items; no call but overlapScore submits
    any other launch, and no call takes a submission back. *)
Theorem launches_are_regular cl c s s' :
  (forall px pc pp cp th py_ u, c <> OverlapScore px pc pp cp th py_ u) ->
  final_state (run cl c s) = Some s' ->
  exists new, queue_ s' = queue_ s ++ new /\ Forall regular_launch new.
Proof. apply run_regular_launch. Qed.

Lemma launches_are_regular_witness :
  exists new,
    queue_ (Demo.after Demo.runtime
              [LearnCorrilation 0 0 1 2 {| float_bits := 0 |} {| float_bits := 0 |}]
              (Demo.tensors Demo.runtime))
    = queue_ (Demo.tensors Demo.runtime) ++ new
    /\ Forall regular_launch new.
Proof.
  apply (launches_are_regular Demo.runtime
           (LearnCorrilation 0 0 1 2 {| float_bits := 0 |} {| float_bits := 0 |})).
  - intros; discriminate.
  - vm_compute. reflexivity.
Defined.

(** ** Calls that work in place *)

Section InPlace.

Context (cl : Runtime).

Lemma run_in_place c s s' :
  in_place c = true -> final_state (run cl c s) = Some s' ->
  tensors_ s' = tensors_ s /\ next_tensor_ s' = next_tensor_ s.
Proof.
  intros Hc Hf.
  pose (heap := fun s : OpenCLBackend => (tensors_ s, next_tensor_ s)).
  enough (heap s' = heap s) as [= -> ->] by done.
  revert s s' Hf. change (keeps heap (run cl c)). unfold keeps.
  assert (forall c0, frame (fun s s' => heap s' = heap s) (enqueue cl c0)) as Hq
    by (intros; apply frame_enqueue; [exact _ | done]).
  assert (forall n, frame (fun s s' => heap s' = heap s) (allocBuffer cl n)) as Ha
    by (intros; apply frame_allocBuffer; [exact _ | done]).
  assert (forall path name names force flags,
            frame (fun s s' => heap s' = heap s)
                  (compileFromFile_path cl path name names force flags)) as Hp
    by (intros; apply frame_compileFromFile_path; [exact _ | done..]).
  assert (forall srcs name names force flags,
            frame (fun s s' => heap s' = heap s)
                  (compileKernel cl srcs name names force flags)) as Hk
    by (intros; apply frame_compileKernel; [exact _ | done..]).
  destruct c; try discriminate Hc; cbn [run];
    unfold overlapScore, globalInhibition, learnCorrilation, sortSynapse, copyToHost, sync;
    frame_cases.
Qed.

End InPlace.

(** X12.  copyToHost, sync, overlapScore, globalInhibition, learnCorrilation,
    sortSynapse and compileKernel work in place: whether they return or
    throw, every tensor is the object it was, none is created and none is
    released. *)
Theorem in_place_calls_keep_tensors cl c s s' :
  in_place c = true -> final_state (run cl c s) = Some s' ->
  tensors_ s' = tensors_ s /\ next_tensor_ s' = next_tensor_ s.
Proof. apply run_in_place. Qed.

Lemma in_place_calls_keep_tensors_witness :
  tensors_ (Demo.after Demo.rejecting [OverlapScore 0 1 2 {| float_bits := 0 |} 1 3 true]
              (Demo.tensors Demo.rejecting))
  = tensors_ (Demo.tensors Demo.rejecting)
  /\ next_tensor_ (Demo.after Demo.rejecting
                     [OverlapScore 0 1 2 {| float_bits := 0 |} 1 3 true]
                     (Demo.tensors Demo.rejecting))
     = next_tensor_ (Demo.tensors Demo.rejecting).
Proof.
  apply (in_place_calls_keep_tensors Demo.rejecting
           (OverlapScore 0 1 2 {| float_bits := 0 |} 1 3 true)).
  - reflexivity.
  - vm_compute. reflexivity.
Defined.

(** ** Transfers *)

Lemma frame_bind_ret {A B} R a (f : A -> M B) : frame R (f a) -> frame R (mret a ≫= f).
Proof. intros H s s'. exact (H s s'). Qed.

Lemma frame_bind_allocBuffer {B} cl R `{!PreOrder R} n (f : Buffer -> M B) :
  (forall s, R s (with_allocated (S (allocated_ s)) s)) ->
  (forall id, frame R (f {| buf_id := id; buf_bytes := n |})) ->
  frame R (allocBuffer cl n ≫= f).
Proof.
  intros Ha Hf s s'. destruct (allocBuffer_cases cl n s) as [[w Hw]|Hok].
  - rewrite (bind_Throw _ f s w s Hw). intros [= <-]. reflexivity.
  - rewrite (bind_Ok _ f s _ _ Hok). intros H. etrans; [apply Ha|].
    by apply (Hf (allocated_ s) _ s').
Qed.

Lemma frame_at_void {A} R (m : M A) s :
  frame_at R s m -> frame_at R s (m ≫= fun _ => mret tt).
Proof.
  intros H s' Hf. apply H. unfold mbind, M_bind in Hf. by destruct (m s).
Qed.

Section Transfers.

Context (cl : Runtime).

Lemma createTensor_in_bounds sh dt data :
  frame (submits in_bounds) (createTensor cl sh dt data).
Proof.
  unfold createTensor.
  apply frame_bind; [exact _ | eauto with frame | intros _].
  apply frame_bind; [exact _ | destruct (dtypeToSize dt); eauto with frame | intros elem].
  cbv zeta.
  pose proof (size_t_of_size_t (volume sh * elem)) as Hn. unfold is_size_t in Hn.
  apply frame_bind_allocBuffer; [exact _ | intros; by apply submits_same | intros id].
  apply frame_bind; [exact _ | | eauto with frame].
  destruct data as [bytes|]; [|eauto with frame].
  apply frame_bind; [exact _ | apply submits_enqueue; intros ?; cbn; lia | intros ?].
  apply frame_if; [eauto with frame|].
  apply frame_if; [eauto with frame|].
  apply frame_bind; [exact _ | | intros ?; apply frame_if; eauto with frame].
  apply submits_enqueue. intros ?. unfold in_bounds. cbn [fst buf_bytes].
  rewrite length_take. lia.
Qed.

Lemma copyToHost_in_bounds p s :
  heap_ok s -> frame_at (submits in_bounds) s (copyToHost cl p).
Proof.
  intros Hok. unfold copyToHost. apply frame_at_deref. intros t Ht.
  destruct (Hok _ _ Ht) as (_ & _ & Hsz).
  destruct t as [sh dt buf|]; [|apply frame_at_frame; eauto with frame].
  destruct Hsz as (elem & He & Hb).
  unfold byte_size. cbn [dtype]. rewrite He.
  apply frame_at_frame, frame_bind_ret.
  apply frame_bind; [exact _ | | intros ?; apply frame_if; eauto with frame].
  apply submits_enqueue. intros ?. unfold in_bounds, size. cbn [fst shape].
  rewrite Hb. pose proof (size_t_of_size_t (volume sh * elem)). unfold is_size_t in *. lia.
Qed.

Lemma copy_in_bounds px s :
  heap_ok s -> frame_at (submits in_bounds) s (copy cl px).
Proof.
  intros Hok. unfold copy. apply frame_at_deref. intros x Hx.
  destruct (Hok _ _ Hx) as (_ & _ & Hsz).
  destruct x as [sh dt bx|].
  - destruct Hsz as (elem & He & Hb).
    unfold byte_size. cbn [dtype points_to_OpenCLTensor et_assert buffer]. rewrite He.
    apply frame_at_frame. apply frame_bind_ret. apply frame_bind_ret.
    apply frame_bind_allocBuffer; [exact _ | intros; by apply submits_same | intros id].
    apply frame_bind_ret.
    apply frame_bind; [exact _ | | intros ?; apply frame_if; eauto with frame].
    apply submits_enqueue. intros ?. unfold in_bounds, size. cbn [fst shape buf_bytes].
    rewrite Hb. pose proof (size_t_of_size_t (volume sh * elem)). unfold is_size_t in *. lia.
  - intros s' H. cbn in H. injection H as <-. reflexivity.
Qed.

Lemma run_in_bounds c s :
  heap_ok s -> frame_at (submits in_bounds) s (run cl c).
Proof.
  intros Hok. pose proof createTensor_in_bounds as Hc.
  destruct c; cbn [run];
    try (apply frame_at_void, copy_in_bounds, Hok);
    try (apply copyToHost_in_bounds, Hok);
    apply frame_at_frame;
    unfold cast, overlapScore, globalInhibition, learnCorrilation, sortSynapse,
      releaseTensor, sync;
    submit_steps; done.
Qed.

End Transfers.

(** X13.  On a heap whose buffers have the size of their tensors, no call
    transfers more than a buffer holds: createTensor maps and writes no more
    than the buffer it allocated, copyToHost reads no more than the tensor's
    buffer, copy copies no more than the source and the new buffer hold. *)
Theorem transfers_in_bounds cl c s s' :
  heap_ok s -> final_state (run cl c s) = Some s' ->
  exists new, queue_ s' = queue_ s ++ new /\ Forall in_bounds new.
Proof. intros Hok. by apply run_in_bounds. Qed.

Lemma transfers_in_bounds_witness :
  exists new,
    queue_ (Demo.after Demo.runtime [Copy 1] (Demo.tensors Demo.runtime))
    = queue_ (Demo.tensors Demo.runtime) ++ new
    /\ Forall in_bounds new.
Proof.
  apply (transfers_in_bounds Demo.runtime (Copy 1)).
  - apply demo_tensors_heap_ok.
  - vm_compute. reflexivity.
Defined.

(** ** What a returned call submitted *)

Section Submitted.

Context (cl : Runtime).

Lemma createTensor_Ok_queue sh dt data s p s' :
  createTensor cl sh dt data s = Ok p s' ->
  exists elem,
    dtypeToSize dt = Some elem
    /\ match data with
       | None => queue_ s' = queue_ s
       | Some bytes =>
           let n := size_t_of (volume sh * elem) in
           let buf := {| buf_id := allocated_ s; buf_bytes := n |} in
           n <= Z.of_nat (length bytes)
           /\ queue_ s' = queue_ s ++
                [(MapBuffer buf n, CL_SUCCESS);
                 (UnmapMemObject buf (take (Z.to_nat n) bytes), CL_SUCCESS)]
       end.
Proof.
  unfold createTensor. intros H.
  inv_step H. apply bind_Ok_inv in H as (elem & s1 & He & H).
  destruct (dtypeToSize dt) as [e|]; [|discriminate He]. injection He as -> ->.
  cbv zeta in H. inv_step H.
  apply bind_Ok_inv in H as ([] & s2 & Hd & H).
  injection H as _ <-. exists elem. split; [done|].
  destruct data as [bytes|]; [|by injection Hd as <-].
  inv_step Hd. case_bool_decide as Hmap; [discriminate Hd|].
  case_bool_decide as Hlen; [discriminate Hd|].
  inv_step Hd. case_bool_decide as Hwrite; [discriminate Hd|].
  injection Hd as <-. cbv zeta. split; [cbn in Hlen |- *; lia|].
  cbn. rewrite Hwrite. cbn in Hmap. rewrite Hmap. by rewrite <- app_assoc.
Qed.

Lemma copy_Ok_queue px s p s' :
  copy cl px s = Ok p s' ->
  exists sh dt bx elem,
    tensors_ s !! px = Some (OpenCLTensor sh dt bx) /\ dtypeToSize dt = Some elem
    /\ queue_ s' = queue_ s ++
         [(CopyBuffer bx {| buf_id := allocated_ s;
                            buf_bytes := size_t_of (volume sh * elem) |}
                      (size_t_of (volume sh * elem)), CL_SUCCESS)].
Proof.
  unfold copy. intros H.
  do 2 inv_step H. apply bind_Ok_inv in H as (n & s1 & Hn & H).
  do 3 inv_step H. case_bool_decide as Herr; [discriminate H|].
  injection H as _ <-.
  unfold byte_size in Hn. cbn [dtype] in Hn.
  destruct (dtypeToSize _) as [elem|] eqn:He; [|discriminate Hn]. injection Hn as <- <-.
  eexists _, _, _, elem. split; [eassumption|]. split; [done|].
  cbn. cbn in Herr. by rewrite Herr.
Qed.

Lemma run_Ok_accepted c s s' :
  ignores_status c = false -> run cl c s = Ok tt s' -> submits accepted s s'.
Proof.
  intros Hc H. destruct c; try discriminate Hc; cbn [run] in H.
  - apply bind_Ok_inv in H as (p & s1 & H & [= <-]).
    apply createTensor_Ok_queue in H as (elem & _ & Hq).
    destruct data as [bytes|]; [|by apply submits_same].
    destruct Hq as [_ Hq]. eexists. split; [exact Hq|]. repeat constructor.
  - unfold releaseTensor in H. inv_steps H. by apply submits_same.
  - unfold copyToHost in H. inv_step H. destruct a; [|discriminate H].
    apply bind_Ok_inv in H as (n & s1 & Hn & H).
    unfold byte_size in Hn. destruct (dtypeToSize _); [|discriminate Hn].
    injection Hn as <- <-. inv_step H. case_bool_decide as Herr; [discriminate H|].
    injection H as <-.
    eexists. split; [reflexivity|]. by apply Forall_singleton.
  - unfold sync in H. inv_step H. case_bool_decide as Herr; [discriminate H|].
    injection H as <-.
    eexists. split; [reflexivity|]. by apply Forall_singleton.
  - apply bind_Ok_inv in H as (p & s1 & H & [= <-]).
    apply copy_Ok_queue in H as (sh & dt & bx & elem & _ & _ & Hq).
    eexists. split; [exact Hq|]. by apply Forall_singleton.
  - destruct (overlapScore_checked cl px pconnections ppermeances connected_permeance
                active_threshold py has_unconnected_synapse s s')
      as [Hq|(k & args & g & l & err & Hq & Hm)]; [by rewrite H | by apply submits_same |].
    rewrite H in Hm. case_bool_decide; [|discriminate Hm].
    eexists. split; [exact Hq|]. by apply Forall_singleton.
  - destruct (learnCorrilation_checked cl px plearn pconnections ppermeances perm_inc
                perm_dec s s')
      as [Hq|(k & args & g & l & err & Hq & Hm)]; [by rewrite H | by apply submits_same |].
    rewrite H in Hm. case_bool_decide; [|discriminate Hm].
    eexists. split; [exact Hq|]. by apply Forall_singleton.
  - destruct (sortSynapse_checked cl pconnections ppermeances s s')
      as [Hq|(k & args & g & l & err & Hq & Hm)]; [by rewrite H | by apply submits_same |].
    rewrite H in Hm. case_bool_decide; [|discriminate Hm].
    eexists. split; [exact Hq|]. by apply Forall_singleton.
  - apply Ok_final in H. by apply (submits_compileKernel cl accepted) in H.
Qed.

End Submitted.



(** X15.  When [copy] returns on a heap whose buffers have the size of
    their tensors, the new handle differs from the source's, the tensor
    behind it has the shape and type of the source over a buffer of its own,
    of the same size, the source is untouched, and the one submission is a
    device-side copy of the whole source buffer, which the device
    accepted. *)
Theorem copy_Ok cl px s p s' :
  heap_ok s -> copy cl px s = Ok p s' ->
  exists sh dt bx nb,
    tensors_ s !! px = Some (OpenCLTensor sh dt bx)
    /\ p <> px
    /\ tensors_ s' !! p = Some (OpenCLTensor sh dt nb)
    /\ tensors_ s' !! px = Some (OpenCLTensor sh dt bx)
    /\ buf_id nb <> buf_id bx
    /\ buf_bytes nb = buf_bytes bx
    /\ queue_ s' = queue_ s ++ [(CopyBuffer bx nb (buf_bytes bx), CL_SUCCESS)].
Proof.
  intros Hok H.
  destruct (copy_Ok_inv _ _ _ _ _ H) as (sh & dt & bx & elem & Hx & He & -> & Ht).
  destruct (copy_Ok_queue _ _ _ _ _ H) as (sh' & dt' & bx' & elem' & Hx' & He' & Hq).
  rewrite Hx in Hx'. injection Hx' as <- <- <-.
  assert (elem' = elem) as -> by congruence.
  destruct (Hok _ _ Hx) as (Hlt & Hown & (e & He2 & Hsz)). cbn in Hown.
  assert (e = elem) as -> by congruence.
  eexists sh, dt, bx, _. split; [done|].
  split; [lia|].
  split; [rewrite Ht; apply lookup_insert_eq|].
  split; [rewrite Ht, lookup_insert_ne by lia; done|].
  split; [cbn; lia|]. split; [cbn; by rewrite Hsz|].
  by rewrite Hsz.
Qed.

Lemma copy_Ok_witness :
  exists sh dt bx nb,
    tensors_ (Demo.tensors Demo.runtime) !! 1%nat = Some (OpenCLTensor sh dt bx)
    /\ 4%nat <> 1%nat
    /\ tensors_ (Demo.after Demo.runtime [Copy 1] (Demo.tensors Demo.runtime)) !! 4%nat
       = Some (OpenCLTensor sh dt nb)
    /\ tensors_ (Demo.after Demo.runtime [Copy 1] (Demo.tensors Demo.runtime)) !! 1%nat
       = Some (OpenCLTensor sh dt bx)
    /\ buf_id nb <> buf_id bx
    /\ buf_bytes nb = buf_bytes bx
    /\ queue_ (Demo.after Demo.runtime [Copy 1] (Demo.tensors Demo.runtime))
       = queue_ (Demo.tensors Demo.runtime) ++ [(CopyBuffer bx nb (buf_bytes bx), CL_SUCCESS)].
Proof.
  apply (copy_Ok Demo.runtime 1%nat (Demo.tensors Demo.runtime)).
  - apply demo_tensors_heap_ok.
  - vm_compute. reflexivity.
Defined.

(** X16.  Every call but cast and globalInhibition looks at the status of
    each of its submissions: when it returns, the device accepted all that
    it submitted. *)
Theorem returned_calls_were_accepted cl c s s' :
  ignores_status c = false -> run cl c s = Ok tt s' ->
  exists new, queue_ s' = queue_ s ++ new /\ Forall accepted new.
Proof. apply run_Ok_accepted. Qed.

Lemma returned_calls_were_accepted_witness :
  exists new,
    queue_ (Demo.after Demo.runtime [SortSynapse 1 2] (Demo.tensors Demo.runtime))
    = queue_ (Demo.tensors Demo.runtime) ++ new
    /\ Forall accepted new.
Proof.
  apply (returned_calls_were_accepted Demo.runtime (SortSynapse 1 2)).
  - reflexivity.
  - vm_compute. reflexivity.
Defined.

(** ** A call served from the cache *)

#[global] Instance served_from_cache_preorder n : PreOrder (served_from_cache n).
Proof.
  split.
  - by intros s Hc.
  - intros s1 s2 s3 H12 H23 Hc. destruct (H12 Hc) as [Hb Hc2].
    destruct (H23 Hc2) as [Hb' Hc3]. split; [congruence | done].
Qed.

(** Two lookups of the same address give the same object. *)
Ltac same_lookups :=
  repeat match goal with
  | H1 : ?o = Some ?a, H2 : ?o = Some ?b |- _ =>
      assert (b = a) by congruence; subst b; clear H2
  end.

Section Served.

Context (cl : Runtime).

Lemma served_compileFromFile_path path n names flags :
  frame (served_from_cache n) (compileFromFile_path cl path n names false flags).
Proof.
  intros s s' H Hc. unfold compileFromFile_path, compileFromFile in H.
  apply bind_final_inv in H as [(w & Hm & _)|(srcs & s1 & Hm & _ & H)].
  - assert (s = s') as <-; [|done].
    apply (frame_readAll_each eq cl [path] s s'). by rewrite Hm.
  - assert (s = s1) as <-.
    { apply (frame_readAll_each eq cl [path] s s1). by rewrite Hm. }
    rewrite compileKernel_hit in H by done. by injection H as <-.
Qed.

Lemma served_state n s s' :
  built_ s' = built_ s -> kernel_manager_ s' = kernel_manager_ s ->
  served_from_cache n s s'.
Proof. intros Hb Hk Hc. split; [done|]. unfold cached in *. by rewrite Hk. Qed.

Lemma run_served_from_cache c s sp :
  specialization_of s c = Some sp ->
  frame_at (served_from_cache (program_name cl sp)) s (run cl c).
Proof.
  intros Hsp.
  assert (forall n c0, frame (served_from_cache n) (enqueue cl c0)) as Hq
    by (intros; apply frame_enqueue; [exact _ | intros; by apply served_state]).
  assert (forall n b, frame (served_from_cache n) (allocBuffer cl b)) as Ha
    by (intros; apply frame_allocBuffer; [exact _ | intros; by apply served_state]).
  assert (forall n sh dt, frame (served_from_cache n) (createTensor cl sh dt None)) as Hc.
  { intros. apply with_createTensor; [exact _ | intros; by apply served_state..]. }
  pose proof served_compileFromFile_path as Hp.
  destruct c; try discriminate Hsp; cbn [run specialization_of] in *;
    try apply frame_at_void;
    unfold cast, overlapScore, globalInhibition, learnCorrilation, sortSynapse;
    repeat (apply frame_at_deref; intros ? ?);
    same_lookups;
    repeat match goal with
    | Ht : tensors_ s !! _ = Some _ |- _ => rewrite Ht in Hsp; cbn in Hsp
    end;
    try (injection Hsp as <-);
    apply frame_at_frame;
    repeat first
      [ exact _
      | solve [eauto with frame]
      | apply frame_bind_defined;
        [ exact _
        | let Hd := fresh "Hd" in
          intros ? Hd; try (rewrite Hd in Hsp; cbn in Hsp; injection Hsp as <-) ]
      | apply frame_bind; [exact _ | | intros ?]
      | apply frame_if
      | progress cbv zeta ].
Qed.

Lemma specialization_stable c s s' sp :
  heap_ok s -> run cl c s = Ok tt s' ->
  specialization_of s c = Some sp -> specialization_of s' c = Some sp.
Proof.
  intros Hok H Hsp.
  destruct (in_place c) eqn:Hc.
  - destruct (run_in_place cl c s s' Hc (Ok_final _ _ _ H)) as [Ht _].
    destruct c; try discriminate Hsp; try discriminate Hc; cbn in *; by rewrite Ht.
  - destruct c; try discriminate Hsp; try discriminate Hc. cbn in *.
    apply bind_Ok_inv in H as (res & s1 & H & [= <-]).
    apply cast_Ok_inv in H as (x & elem & Hx & _ & _ & -> & Ht & _).
    destruct (Hok _ _ Hx) as (Hlt & _).
    rewrite Ht, lookup_insert_ne by lia. done.
Qed.

End Served.

(** X17.  A dispatcher operation that returned has left its program in
    the cache: the same call made again, whether it then returns or throws,
    hands nothing to the device compiler. *)
Theorem second_call_compiles_nothing cl c s sp s1 s2 :
  heap_ok s -> specialization_of s c = Some sp ->
  run cl c s = Ok tt s1 -> final_state (run cl c s1) = Some s2 ->
  built_ s2 = built_ s1 /\ cached s2 (program_name cl sp).
Proof.
  intros Hok Hsp H1 H2.
  assert (cached s1 (program_name cl sp)) as Hc.
  { eapply run_registers; [exact H1|]. unfold program_name_of. by rewrite Hsp. }
  pose proof (specialization_stable cl c s s1 sp Hok H1 Hsp) as Hsp1.
  by apply (run_served_from_cache cl c s1 sp Hsp1 s2 H2).
Qed.

Lemma second_call_compiles_nothing_witness :
  built_ (Demo.after Demo.runtime [Cast 0 DType.Int32; Cast 0 DType.Int32]
            (Demo.tensors Demo.runtime))
  = built_ (Demo.after Demo.runtime [Cast 0 DType.Int32] (Demo.tensors Demo.runtime))
  /\ cached (Demo.after Demo.runtime [Cast 0 DType.Int32; Cast 0 DType.Int32]
               (Demo.tensors Demo.runtime))
            (program_name Demo.runtime (ForCast DType.Bool DType.Int32)).
Proof.
  apply (second_call_compiles_nothing Demo.runtime (Cast 0 DType.Int32)
           (Demo.tensors Demo.runtime) (ForCast DType.Bool DType.Int32)).
  - apply demo_tensors_heap_ok.
  - vm_compute. reflexivity.
  - vm_compute. reflexivity.
  - vm_compute. reflexivity.
Defined.

(** ** Work items the grid covers *)

(** X18.  When rounding the cap up to the group size stays in [size_t]
    (as for the caps and group sizes the dispatchers use), the grid that
    [selectWorkSize] returns has a work item for each of the [size] items
    exactly when [size] is at most the cap; beyond the cap a kernel has to
    take several items per work item. *)
Theorem selectWorkSize_covers max mul size g :
  is_size_t size -> 0 < mul -> max + mul <= SIZE_T_MOD ->
  selectWorkSize max mul size = Some g ->
  (size <= g <-> size <= max).
Proof.
  intros Hs Hm Hcap Hg.
  pose proof (selectWorkSize_le_max _ _ _ _ Hg) as Hle.
  split; [lia|]. intros Hsz.
  rewrite selectWorkSize_wrap in Hg by assumption. injection Hg as <-.
  destruct (ceil_div_least size mul (ceil_div size mul) Hm) as [Hlo _].
  assert (ceil_div size mul * mul < size + mul) as Hhi.
  { unfold ceil_div.
    pose proof (Z.mul_div_le (size + mul - 1) mul Hm). lia. }
  unfold is_size_t in Hs.
  unfold size_t_of. rewrite Z.mod_small by lia. lia.
Qed.

Lemma selectWorkSize_covers_witness :
  8000 <= 8000 <-> 8000 <= 8152.
Proof.
  apply (selectWorkSize_covers 8152 64 8000 8000).
  - unfold is_size_t, SIZE_T_MOD. lia.
  - lia.
  - unfold SIZE_T_MOD. lia.
  - vm_compute. reflexivity.
Defined.
